(** * Agentic Speech Studio: the speech queue scheduler of [src/app/page.tsx]

    The React component [Page] keeps a queue of speech requests and hands
    them, one at a time, to the browser's speech engine
    ([window.speechSynthesis]).  This file embeds the component's state, its
    event handlers, the callbacks it registers on each utterance and the
    reactive dispatch effect as functions on an explicit state record, and
    proves the properties the specification states about them.

    Conventions of the embedding:
    - [useState] variables and [useRef] cells are fields of [State];
    - a handler is a function [State -> State]; a [setQueue (prev => ...)]
      becomes an update of the [queue] field with the same [map] / [filter] /
      append the source writes;
    - the engine is external.  What the component asks of it is recorded, in
      order, in [engineCalls]; what the engine reports ([speaking], [paused],
      the error reason) and the value drawn by [Math.random] arrive as
      arguments of the events;
    - numbers are rationals ([Q]): the handlers only copy and compare them;
    - the submitted text is a list of UTF-16 code units, as a JS string is. *)

From Stdlib Require Import String Ascii List Bool Arith Lia NArith QArith.
Import ListNotations.
Local Close Scope Q_scope.
Local Open Scope string_scope.
Local Open Scope list_scope.
Local Open Scope nat_scope.

(** ** JS strings and [String.prototype.trim] *)

Definition jsstring := list N.

(** The code units ECMAScript's [trim] strips: WhiteSpace and
    LineTerminator. *)
Definition isWhiteSpace (c : N) : bool :=
  (N.leb 9 c && N.leb c 13)            (* TAB LF VT FF CR *)
  || N.eqb c 32                        (* SPACE *)
  || N.eqb c 160                       (* NBSP *)
  || N.eqb c 5760                      (* U+1680 *)
  || (N.leb 8192 c && N.leb c 8202)    (* U+2000 .. U+200A *)
  || N.eqb c 8232 || N.eqb c 8233      (* LS PS *)
  || N.eqb c 8239 || N.eqb c 8287      (* U+202F U+205F *)
  || N.eqb c 12288                     (* U+3000 *)
  || N.eqb c 65279.                    (* U+FEFF *)

Fixpoint trimStart (t : jsstring) : jsstring :=
  match t with
  | c :: t' => if isWhiteSpace c then trimStart t' else t
  | [] => []
  end.

Definition trimEnd (t : jsstring) : jsstring := rev (trimStart (rev t)).

Definition trim (t : jsstring) : jsstring := trimEnd (trimStart t).

(** Truthiness of a JS string: only the empty string is falsy. *)
Definition truthy (t : jsstring) : bool :=
  match t with [] => false | _ :: _ => true end.

(** Text literals for the examples: one code unit per ASCII character. *)
Fixpoint js (t : string) : jsstring :=
  match t with
  | EmptyString => []
  | String c t' => N_of_ascii c :: js t'
  end.

(** ** Data model *)

Inductive QueueItemStatus : Type :=
  | pending | speaking | completed | error | cancelled.

Definition status_eqb (a b : QueueItemStatus) : bool :=
  match a, b with
  | pending, pending | speaking, speaking | completed, completed
  | error, error | cancelled, cancelled => true
  | _, _ => false
  end.

Module VoiceOption.
Record t : Type := mk { id : string; name : string; lang : string }.
End VoiceOption.

Module QueueItem.
Record t : Type := mk {
  id : string;
  text : jsstring;
  voiceId : string;
  rate : Q;
  pitch : Q;
  volume : Q;
  status : QueueItemStatus;
  error : option string
}.

(** [{ ...entry, status: st }] *)
Definition with_status (entry : t) (st : QueueItemStatus) : t :=
  mk (id entry) (text entry) (voiceId entry) (rate entry) (pitch entry)
     (volume entry) st (error entry).

(** [{ ...entry, status: st, error: reason }] *)
Definition with_status_error (entry : t) (st : QueueItemStatus) (reason : string) : t :=
  mk (id entry) (text entry) (voiceId entry) (rate entry) (pitch entry)
     (volume entry) st (Some reason).
End QueueItem.

(** A [SpeechSynthesisUtterance] as [speak] builds it; [item] is the request
    its three callbacks close over. *)
Module Utterance.
Record t : Type := mk {
  text : jsstring;
  voice : option VoiceOption.t;
  rate : Q;
  pitch : Q;
  volume : Q;
  item : QueueItem.t
}.
End Utterance.

(** The methods of [window.speechSynthesis] the component calls. *)
Inductive EngineCall : Type :=
  | Cancel
  | Speak (utterance : Utterance.t)
  | Pause
  | Resume.

Record State : Type := mkState {
  (* useState *)
  text : jsstring;
  voices : list VoiceOption.t;
  selectedVoice : string;
  rate : Q;
  pitch : Q;
  volume : Q;
  queue : list QueueItem.t;
  isPaused : bool;
  supportsSpeech : bool;
  (* useRef *)
  speechRef : bool;                   (* speechRef.current is not null *)
  currentUtteranceRef : option nat;   (* the utterance it points to, by number *)
  (* the engine, seen from the component *)
  engineCalls : list EngineCall;      (* calls made so far, oldest first *)
  engineStarted : bool                (* start event of the latest utterance delivered *)
}.

Definition set_text v s :=
  mkState v (voices s) (selectedVoice s) (rate s) (pitch s) (volume s) (queue s)
    (isPaused s) (supportsSpeech s) (speechRef s) (currentUtteranceRef s)
    (engineCalls s) (engineStarted s).
Definition set_voices v s :=
  mkState (text s) v (selectedVoice s) (rate s) (pitch s) (volume s) (queue s)
    (isPaused s) (supportsSpeech s) (speechRef s) (currentUtteranceRef s)
    (engineCalls s) (engineStarted s).
Definition set_selectedVoice v s :=
  mkState (text s) (voices s) v (rate s) (pitch s) (volume s) (queue s)
    (isPaused s) (supportsSpeech s) (speechRef s) (currentUtteranceRef s)
    (engineCalls s) (engineStarted s).
Definition set_rate v s :=
  mkState (text s) (voices s) (selectedVoice s) v (pitch s) (volume s) (queue s)
    (isPaused s) (supportsSpeech s) (speechRef s) (currentUtteranceRef s)
    (engineCalls s) (engineStarted s).
Definition set_pitch v s :=
  mkState (text s) (voices s) (selectedVoice s) (rate s) v (volume s) (queue s)
    (isPaused s) (supportsSpeech s) (speechRef s) (currentUtteranceRef s)
    (engineCalls s) (engineStarted s).
Definition set_volume v s :=
  mkState (text s) (voices s) (selectedVoice s) (rate s) (pitch s) v (queue s)
    (isPaused s) (supportsSpeech s) (speechRef s) (currentUtteranceRef s)
    (engineCalls s) (engineStarted s).
Definition set_queue v s :=
  mkState (text s) (voices s) (selectedVoice s) (rate s) (pitch s) (volume s) v
    (isPaused s) (supportsSpeech s) (speechRef s) (currentUtteranceRef s)
    (engineCalls s) (engineStarted s).
Definition set_isPaused v s :=
  mkState (text s) (voices s) (selectedVoice s) (rate s) (pitch s) (volume s) (queue s)
    v (supportsSpeech s) (speechRef s) (currentUtteranceRef s)
    (engineCalls s) (engineStarted s).
Definition set_currentUtteranceRef v s :=
  mkState (text s) (voices s) (selectedVoice s) (rate s) (pitch s) (volume s) (queue s)
    (isPaused s) (supportsSpeech s) (speechRef s) v
    (engineCalls s) (engineStarted s).
Definition set_engineCalls v s :=
  mkState (text s) (voices s) (selectedVoice s) (rate s) (pitch s) (volume s) (queue s)
    (isPaused s) (supportsSpeech s) (speechRef s) (currentUtteranceRef s)
    v (engineStarted s).
Definition set_engineStarted v s :=
  mkState (text s) (voices s) (selectedVoice s) (rate s) (pitch s) (volume s) (queue s)
    (isPaused s) (supportsSpeech s) (speechRef s) (currentUtteranceRef s)
    (engineCalls s) v.

(** [setQueue((prev) => f prev)] *)
Definition setQueue (f : list QueueItem.t -> list QueueItem.t) (s : State) : State :=
  set_queue (f (queue s)) s.

Definition call (c : list EngineCall) (s : State) : State :=
  set_engineCalls (engineCalls s ++ c) s.

(** The utterances handed to the engine so far; an utterance is named by its
    position in this list. *)
Fixpoint spoken (calls : list EngineCall) : list Utterance.t :=
  match calls with
  | [] => []
  | Speak u :: calls' => u :: spoken calls'
  | _ :: calls' => spoken calls'
  end.

Definition utterances (s : State) : list Utterance.t := spoken (engineCalls s).

(** The request ids that have been dispatched, in dispatch order. *)
Definition dispatched (s : State) : list string :=
  map (fun u => QueueItem.id (Utterance.item u)) (utterances s).

(** ** The component *)

Definition defaultText : jsstring :=
  js "Never lose your ideas again. Paste anything you want to hear, dial in the perfect voice, and generate speech instantly.".

(** The state after mount.  [supported] tells whether
    [window.speechSynthesis] exists: the first effect then either stores it
    in [speechRef] or calls [setSupportsSpeech(false)]. *)
Definition init (supported : bool) : State :=
  mkState defaultText [] "" 1%Q 1%Q 1%Q [] false supported supported None [] false.

Definition selectedVoiceInfo (s : State) : option VoiceOption.t :=
  find (fun voice => String.eqb (VoiceOption.id voice) (selectedVoice s)) (voices s).

(** The utterance [speak] builds for a request: its text, the voice of the
    catalog with the request's [voiceId] if there is one, its rate, pitch and
    volume. *)
Definition utteranceFor (s : State) (item : QueueItem.t) : Utterance.t :=
  Utterance.mk (QueueItem.text item)
    (find (fun v => String.eqb (VoiceOption.id v) (QueueItem.voiceId item)) (voices s))
    (QueueItem.rate item) (QueueItem.pitch item) (QueueItem.volume item) item.

Definition speak (item : QueueItem.t) (s : State) : State :=
  if negb (speechRef s) || negb (supportsSpeech s) then s
  else
    let utterance := utteranceFor s item in
    set_engineStarted false
      (call [Cancel; Speak utterance]
         (set_currentUtteranceRef (Some (length (utterances s))) s)).

(** [utterance.onstart] *)
Definition onstart (item : QueueItem.t) (s : State) : State :=
  setQueue (map (fun entry =>
    if String.eqb (QueueItem.id entry) (QueueItem.id item)
    then QueueItem.with_status entry speaking else entry)) s.

(** [utterance.onend]; [engineSpeaking] is what the engine's [speaking] flag
    reads when the update runs. *)
Definition onend (item : QueueItem.t) (engineSpeaking : bool) (s : State) : State :=
  set_isPaused false
    (set_currentUtteranceRef None
       (setQueue (map (fun entry =>
          if String.eqb (QueueItem.id entry) (QueueItem.id item)
          then QueueItem.with_status entry
                 (if speechRef s && engineSpeaking then cancelled else completed)
          else entry)) s)).

(** [utterance.onerror]; [reason] is [event.error]. *)
Definition onerror (item : QueueItem.t) (reason : option string) (s : State) : State :=
  set_isPaused false
    (set_currentUtteranceRef None
       (setQueue (map (fun entry =>
          if String.eqb (QueueItem.id entry) (QueueItem.id item)
          then QueueItem.with_status_error entry error
                 (match reason with Some r => r | None => "Unknown error" end)
          else entry)) s)).

(** The second [useEffect]: the reactive dispatch rule. *)
Definition dispatchEffect (s : State) : State :=
  if negb (speechRef s) || negb (supportsSpeech s) then s
  else
    match find (fun item => status_eqb (QueueItem.status item) speaking) (queue s) with
    | Some _ => s
    | None =>
        if isPaused s then s
        else
          match find (fun item => status_eqb (QueueItem.status item) pending) (queue s) with
          | Some next => speak next s
          | None => s
          end
    end.

(** [rnd] is the value of [randomId()]. *)
Definition handleAddToQueue (rnd : string) (s : State) : State :=
  let trimmed := trim (text s) in
  if negb (truthy trimmed) then s
  else
    let item :=
      QueueItem.mk rnd trimmed
        (match selectedVoiceInfo s with Some v => VoiceOption.id v | None => "" end)
        (rate s) (pitch s) (volume s) pending None in
    setQueue (fun prev => prev ++ [item]) s.

Definition handleStop (s : State) : State :=
  if negb (speechRef s) then s
  else
    set_isPaused false
      (setQueue (map (fun entry =>
         if status_eqb (QueueItem.status entry) speaking
         then QueueItem.with_status entry cancelled else entry))
         (set_currentUtteranceRef None (call [Cancel] s))).

(** [engineSpeaking] and [enginePaused] are the engine's [speaking] and
    [paused] flags at the time of the click. *)
Definition handlePauseResume (engineSpeaking enginePaused : bool) (s : State) : State :=
  if negb (speechRef s) then s
  else if engineSpeaking && negb enginePaused then
    set_isPaused true (call [Pause] s)
  else if enginePaused then
    set_isPaused false (call [Resume] s)
  else s.

Definition handleClearCompleted (s : State) : State :=
  setQueue (filter (fun item =>
    status_eqb (QueueItem.status item) pending
    || status_eqb (QueueItem.status item) speaking)) s.

(** ** Events and the transition function *)

(** What can happen to the mounted component: the user edits the form or
    clicks a button, the voice catalog is replaced ([mapVoices], on the
    engine's [onvoiceschanged] or after a voice selection), or the engine
    delivers a callback of utterance number [u].  How [mapVoices] builds the
    catalog and picks a default voice is left to the events [VoicesChanged]
    and [SelectVoice]: the scheduler only reads their results. *)
Inductive Event : Type :=
  | SetText (t : jsstring)
  | SelectVoice (v : string)
  | SetRate (r : Q)
  | SetPitch (p : Q)
  | SetVolume (v : Q)
  | VoicesChanged (vs : list VoiceOption.t)
  | AddToQueue (rnd : string)
  | Stop
  | PauseResume (engineSpeaking enginePaused : bool)
  | ClearCompleted
  | OnStart (u : nat)
  | OnEnd (u : nat) (engineSpeaking : bool)
  | OnError (u : nat) (reason : option string).

(** The state updates the event makes, before React re-renders. *)
Definition handle (s : State) (e : Event) : State :=
  match e with
  | SetText t => set_text t s
  | SelectVoice v => set_selectedVoice v s
  | SetRate r => set_rate r s
  | SetPitch p => set_pitch p s
  | SetVolume v => set_volume v s
  | VoicesChanged vs => set_voices vs s
  | AddToQueue rnd => handleAddToQueue rnd s
  | Stop => handleStop s
  | PauseResume sp pa => handlePauseResume sp pa s
  | ClearCompleted => handleClearCompleted s
  | OnStart u =>
      match nth_error (utterances s) u with
      | Some utterance =>
          let s' := onstart (Utterance.item utterance) s in
          if S u =? length (utterances s) then set_engineStarted true s' else s'
      | None => s
      end
  | OnEnd u sp =>
      match nth_error (utterances s) u with
      | Some utterance => onend (Utterance.item utterance) sp s
      | None => s
      end
  | OnError u reason =>
      match nth_error (utterances s) u with
      | Some utterance => onerror (Utterance.item utterance) reason s
      | None => s
      end
  end.

(** Whether the event replaces a dependency of the dispatch effect other
    than [isPaused]: it calls [setQueue] (every [map], [filter] and spread
    makes a new array), or it replaces [voices] and with it [speak]. *)
Definition touchesDeps (s : State) (e : Event) : bool :=
  match e with
  | VoicesChanged _ => true
  | AddToQueue _ => truthy (trim (text s))
  | Stop => speechRef s
  | ClearCompleted => true
  | OnStart u | OnEnd u _ | OnError u _ => u <? length (utterances s)
  | _ => false
  end.

(** One event: the handler, then the dispatch effect when one of its
    dependencies [queue, isPaused, speak, supportsSpeech] changed. *)
Definition step (s : State) (e : Event) : State :=
  let s' := handle s e in
  if touchesDeps s e || negb (Bool.eqb (isPaused s) (isPaused s'))
  then dispatchEffect s' else s'.

Definition run (s : State) (es : list Event) : State := fold_left step es s.

(** ** What the environment is assumed to do

    - [randomId] returns a token that no request in the queue carries and
      that no dispatched request carried (the specification's "opaque unique
      token");
    - [speak] cancels the engine before every submission, so the engine only
      ever starts the utterance submitted last, and starts it once;
    - an end or error callback belongs to an utterance that was submitted;
      it may arrive at any later time, also after a cancel. *)
Definition enabled (s : State) (e : Event) : bool :=
  match e with
  | AddToQueue rnd =>
      negb (existsb (String.eqb rnd) (map QueueItem.id (queue s)))
      && negb (existsb (String.eqb rnd) (dispatched s))
  | OnStart u => (S u =? length (utterances s)) && negb (engineStarted s)
  | OnEnd u _ | OnError u _ => u <? length (utterances s)
  | _ => true
  end.

Inductive reachable : State -> Prop :=
  | reach_init : forall supported, reachable (init supported)
  | reach_step : forall s e, reachable s -> enabled s e = true -> reachable (step s e).

(** ** Predicates of the properties *)

Definition statuses (s : State) : list QueueItemStatus :=
  map QueueItem.status (queue s).

Definition isSpeaking (item : QueueItem.t) : bool :=
  status_eqb (QueueItem.status item) speaking.

Definition speakingCount (q : list QueueItem.t) : nat :=
  length (filter isSpeaking q).

(** The terminal statuses of the specification. *)
Definition terminal (st : QueueItemStatus) : bool :=
  match st with
  | completed | error | cancelled => true
  | pending | speaking => false
  end.

Definition userOperation (e : Event) : bool :=
  match e with
  | OnStart _ | OnEnd _ _ | OnError _ _ => false
  | _ => true
  end.

(** The legal prosody ranges of the specification's data model. *)
Definition inRange (item : QueueItem.t) : Prop :=
  ((1 # 2) <= QueueItem.rate item /\ QueueItem.rate item <= 2)%Q
  /\ (0 <= QueueItem.pitch item /\ QueueItem.pitch item <= 2)%Q
  /\ (0 <= QueueItem.volume item /\ QueueItem.volume item <= 1)%Q.

(** The fields that are neither the queue, nor the paused flag, nor part of
    the interaction with the engine. *)
Definition form (s : State) :=
  (text s, voices s, selectedVoice s, rate s, pitch s, volume s,
   supportsSpeech s, speechRef s).

(** The speech engine is available: the guard that opens [speak] and the
    dispatch effect, [!speechRef.current || !supportsSpeech], is false. *)
Definition engineReady (s : State) : bool := speechRef s && supportsSpeech s.

(** Where the request at position [i] of the queue is after the event:
    [ClearCompleted] removes the finished requests and moves the others up;
    every other event leaves the positions alone. *)
Definition positionAfter (s : State) (e : Event) (i : nat) : option nat :=
  match nth_error (queue s) i with
  | None => None
  | Some item =>
      match e with
      | ClearCompleted =>
          if terminal (QueueItem.status item) then None
          else Some (length (filter (fun it => negb (terminal (QueueItem.status it)))
                               (firstn i (queue s))))
      | _ => Some i
      end
  end.

Fixpoint positionAfterAll (s : State) (es : list Event) (i : nat) : option nat :=
  match es with
  | [] => match nth_error (queue s) i with Some _ => Some i | None => None end
  | e :: es' =>
      match positionAfter s e i with
      | Some j => positionAfterAll (step s e) es' j
      | None => None
      end
  end.

(** A request as a click on "Speak & Queue" makes it from the text ["hi"],
    no selected voice and the initial sliders, with a given status. *)
Definition request (id : string) (st : QueueItemStatus) : QueueItem.t :=
  QueueItem.mk id (js "hi") "" 1 1 1 st None.

(** The events of a trace are all enabled when their turn comes. *)
Fixpoint valid (s : State) (es : list Event) : bool :=
  match es with
  | [] => true
  | e :: es' => enabled s e && valid (step s e) es'
  end.

(** How a request [old] relates to what a sequence of events makes of it,
    [new]; [userOnly] tells that no event of the sequence was an engine
    callback. *)
Definition evolves (userOnly : bool) (old new : QueueItem.t) : Prop :=
  QueueItem.id new = QueueItem.id old
  /\ QueueItem.text new = QueueItem.text old
  /\ (QueueItem.status new = pending -> QueueItem.status old = pending)
  /\ (userOnly = true ->
        QueueItem.status new = QueueItem.status old
        \/ (QueueItem.status old = speaking /\ QueueItem.status new = cancelled)).

(** The invariant behind the exclusivity of [speaking]: ids are distinct,
    at most one request is speaking, and none is while the utterance
    submitted last has not started. *)
Definition exclusive (s : State) : Prop :=
  NoDup (map QueueItem.id (queue s))
  /\ speakingCount (queue s) <= 1
  /\ (engineStarted s = false -> speakingCount (queue s) = 0).

(** The invariant behind the dispatch order, for a queue [q] and the ids [d]
    dispatched so far, oldest first: a request that left pending has been
    dispatched, and when a dispatched request [j] stands behind a request
    [i] in the queue, [i] was dispatched at a time when [j] had not been. *)
Definition fifoOn (d : list string) (q : list QueueItem.t) : Prop :=
  (forall x, In x q -> QueueItem.status x <> pending -> In (QueueItem.id x) d)
  /\ (forall l1 i l2 j, map QueueItem.id q = l1 ++ i :: l2 -> In j l2 -> In j d ->
        exists d1 d2, d = d1 ++ i :: d2 /\ ~ In j d1).

Definition fifo (s : State) : Prop := fifoOn (dispatched s) (queue s).

(** ** The rest of the component: the voice catalog and what is rendered *)

(** A [SpeechSynthesisVoice] as [getVoices()] returns it: the two fields the
    component reads. *)
Module EngineVoice.
Record t : Type := mk { name : string; lang : string }.
End EngineVoice.

(** [String.prototype.toLowerCase] on the letters A to Z.  The component
    only tests whether the result starts with ["en"], and no character
    outside A to Z becomes an [e] or an [n] in lower case, so the other
    characters can stay as they are. *)
Definition lowerAscii (c : ascii) : ascii :=
  let n := nat_of_ascii c in
  if (65 <=? n) && (n <=? 90) then ascii_of_nat (n + 32) else c.

Fixpoint toLowerCase (t : string) : string :=
  match t with
  | EmptyString => EmptyString
  | String c t' => String (lowerAscii c) (toLowerCase t')
  end.

(** [t.startsWith(p)] *)
Definition startsWith (p t : string) : bool := String.prefix p t.

(** [mapVoices], with [getVoices()] returning [availableVoices]: the catalog
    is replaced, and a default voice is chosen if none is selected. *)
Definition mapVoices (availableVoices : list EngineVoice.t) (s : State) : State :=
  let mapped :=
    map (fun voice =>
           VoiceOption.mk (EngineVoice.name voice ++ EngineVoice.lang voice)
             (EngineVoice.name voice) (EngineVoice.lang voice))
        availableVoices in
  let s' := set_voices mapped s in
  if String.eqb (selectedVoice s) "" && (0 <? length mapped) then
    match
      match find (fun voice => startsWith "en" (toLowerCase (VoiceOption.lang voice))) mapped with
      | Some voice => Some voice
      | None => nth_error mapped 0
      end
    with
    | Some preferred => set_selectedVoice (VoiceOption.id preferred) s'
    | None => s'
    end
  else s'.

(** The [speakingStatus] memo shown in the status line. *)
Definition speakingStatus (s : State) : string :=
  match find (fun item => status_eqb (QueueItem.status item) speaking) (queue s) with
  | None => "Idle"
  | Some _ => if isPaused s then "Paused" else "Speaking"
  end.

(** The [disabled] attributes of the four buttons. *)
Definition speakDisabled (s : State) : bool := negb (truthy (trim (text s))).

Definition pauseDisabled (s : State) : bool :=
  negb (existsb (fun item => status_eqb (QueueItem.status item) speaking) (queue s)).

Definition stopDisabled (s : State) : bool :=
  match length (queue s) with 0 => true | S _ => false end.

Definition clearDisabled (s : State) : bool :=
  negb (existsb (fun item =>
          status_eqb (QueueItem.status item) completed
          || status_eqb (QueueItem.status item) error) (queue s)).

(** The text shown for a queue entry:
    [item.text.slice(0, 120) + (item.text.length > 120 ? "..." : "")], the
    suffix being the one code unit U+2026. *)
Definition itemLabel (item : QueueItem.t) : jsstring :=
  firstn 120 (QueueItem.text item)
  ++ (if 120 <? length (QueueItem.text item) then [8230%N] else []).

(** What the three sliders can deliver: their [min] and [max] attributes. *)
Definition sliderAllows (e : Event) : bool :=
  match e with
  | SetRate r => Qle_bool (1 # 2) r && Qle_bool r 2
  | SetPitch p => Qle_bool 0 p && Qle_bool p 2
  | SetVolume v => Qle_bool 0 v && Qle_bool v 1
  | _ => true
  end.

(** The fields of a request that identify what is to be spoken. *)
Definition payload (item : QueueItem.t) :=
  (QueueItem.id item, QueueItem.text item, QueueItem.voiceId item,
   QueueItem.rate item, QueueItem.pitch item, QueueItem.volume item).

(** Every [speak] call in the engine log comes right after a [cancel]. *)
Fixpoint cancelBeforeSpeak (calls : list EngineCall) : bool :=
  match calls with
  | [] => true
  | Speak _ :: _ => false
  | Cancel :: calls' =>
      match calls' with
      | Speak _ :: calls'' => cancelBeforeSpeak calls''
      | _ => cancelBeforeSpeak calls'
      end
  | _ :: calls' => cancelBeforeSpeak calls'
  end.

(** A text as [trim] leaves it: not empty, no white space at either end. *)
Definition trimmedText (t : jsstring) : Prop :=
  t <> []
  /\ (forall c, hd_error t = Some c -> isWhiteSpace c = false)
  /\ (forall c, hd_error (rev t) = Some c -> isWhiteSpace c = false).

(** The form holds values the sliders can deliver. *)
Definition formInRange (s : State) : Prop :=
  ((1 # 2) <= rate s /\ rate s <= 2)%Q
  /\ (0 <= pitch s /\ pitch s <= 2)%Q
  /\ (0 <= volume s /\ volume s <= 1)%Q.

(** The state of a component that has no speech engine. *)
Definition inert (s : State) : Prop :=
  speechRef s = false
  /\ engineCalls s = []
  /\ Forall (fun item => QueueItem.status item = pending) (queue s)
  /\ isPaused s = false.

(** With the engine available, nobody speaking and the paused flag off,
    the utterance submitted last is the one of the earliest pending request. *)
Definition headSubmitted (s : State) : Prop :=
  engineReady s = true ->
  speakingCount (queue s) = 0 ->
  isPaused s = false ->
  forall l1 x l2,
    queue s = l1 ++ x :: l2 ->
    Forall (fun y => QueueItem.status y <> pending) l1 ->
    QueueItem.status x = pending ->
    exists us, utterances s = us ++ [utteranceFor s x].

(** The test [mapVoices] prefers a voice by:
    [voice.lang.toLowerCase().startsWith("en")]. *)
Definition englishLike (voice : VoiceOption.t) : bool :=
  startsWith "en" (toLowerCase (VoiceOption.lang voice)).

(** The catalog entry [mapVoices] makes of an engine voice. *)
Definition voiceOption (voice : EngineVoice.t) : VoiceOption.t :=
  VoiceOption.mk (EngineVoice.name voice ++ EngineVoice.lang voice)
    (EngineVoice.name voice) (EngineVoice.lang voice).

(** A click can only come from a button that is not disabled. *)
Definition clickable (s : State) (e : Event) : bool :=
  match e with
  | AddToQueue _ => negb (speakDisabled s)
  | PauseResume _ _ => negb (pauseDisabled s)
  | Stop => negb (stopDisabled s)
  | ClearCompleted => negb (clearDisabled s)
  | _ => true
  end.

Fixpoint clickableRun (s : State) (es : list Event) : bool :=
  match es with
  | [] => true
  | e :: es' => clickable s e && clickableRun (step s e) es'
  end.


(** * Proofs *)

Ltac case_if :=
  match goal with |- context [if ?c then _ else _] => destruct c eqn:? end.

Lemma valid_reachable (es : list Event) (s : State) :
  reachable s -> valid s es = true -> reachable (run s es).
Proof.
  revert s. induction es as [|e es IH]; intros s R V; simpl in *; [exact R|].
  apply andb_prop in V. destruct V as [En V].
  apply IH; [apply reach_step; assumption | exact V].
Qed.


(** ** The dispatch effect leaves the React state alone *)

Section Frames.
Variable s : State.

Lemma speak_queue item : queue (speak item s) = queue s.
Proof. unfold speak. destruct (negb (speechRef s) || negb (supportsSpeech s)); reflexivity. Qed.

Lemma speak_isPaused item : isPaused (speak item s) = isPaused s.
Proof. unfold speak. destruct (negb (speechRef s) || negb (supportsSpeech s)); reflexivity. Qed.

Lemma dispatchEffect_queue : queue (dispatchEffect s) = queue s.
Proof.
  unfold dispatchEffect.
  destruct (negb (speechRef s) || negb (supportsSpeech s)); [reflexivity|].
  destruct (find _ (queue s)); [reflexivity|].
  destruct (isPaused s); [reflexivity|].
  destruct (find _ (queue s)); [apply speak_queue | reflexivity].
Qed.

Lemma dispatchEffect_isPaused : isPaused (dispatchEffect s) = isPaused s.
Proof.
  unfold dispatchEffect.
  destruct (negb (speechRef s) || negb (supportsSpeech s)); [reflexivity|].
  destruct (find _ (queue s)); [reflexivity|].
  destruct (isPaused s) eqn:E; [exact E|].
  destruct (find _ (queue s)); [rewrite speak_isPaused; exact E | exact E].
Qed.

Lemma speak_form item : form (speak item s) = form s.
Proof. unfold speak. destruct (negb (speechRef s) || negb (supportsSpeech s)); reflexivity. Qed.

Lemma dispatchEffect_form : form (dispatchEffect s) = form s.
Proof.
  unfold dispatchEffect.
  destruct (negb (speechRef s) || negb (supportsSpeech s)); [reflexivity|].
  destruct (find _ (queue s)); [reflexivity|].
  destruct (isPaused s); [reflexivity|].
  destruct (find _ (queue s)); [apply speak_form | reflexivity].
Qed.

End Frames.

Lemma step_queue s e : queue (step s e) = queue (handle s e).
Proof. unfold step. destruct (_ || _); [apply dispatchEffect_queue | reflexivity]. Qed.

Lemma step_isPaused s e : isPaused (step s e) = isPaused (handle s e).
Proof. unfold step. destruct (_ || _); [apply dispatchEffect_isPaused | reflexivity]. Qed.

Lemma step_form s e : form (step s e) = form (handle s e).
Proof. unfold step. destruct (_ || _); [apply dispatchEffect_form | reflexivity]. Qed.

Lemma status_eqb_eq a b : status_eqb a b = true <-> a = b.
Proof. destruct a, b; simpl; split; congruence. Qed.

Lemma keep_not_terminal item :
  status_eqb (QueueItem.status item) pending || status_eqb (QueueItem.status item) speaking
  = negb (terminal (QueueItem.status item)).
Proof. destruct (QueueItem.status item); reflexivity. Qed.

(** Splitting a filtered list splits the list it was filtered from. *)
Lemma filter_split (X : Type) (f : X -> bool) l l1 x l2 :
  filter f l = l1 ++ x :: l2 ->
  exists m1 m2, l = m1 ++ x :: m2 /\ filter f m1 = l1 /\ filter f m2 = l2 /\ f x = true.
Proof.
  revert l1. induction l as [|a l IH]; intros l1 H; simpl in H.
  - destruct l1; discriminate.
  - destruct (f a) eqn:Fa.
    + destruct l1 as [|b l1]; simpl in H; injection H as -> H.
      * exists [], l. simpl. auto.
      * destruct (IH _ H) as (m1 & m2 & -> & <- & <- & Fx).
        exists (b :: m1), m2. simpl. rewrite Fa. auto.
    + destruct (IH _ H) as (m1 & m2 & -> & <- & <- & Fx).
      exists (a :: m1), m2. simpl. rewrite Fa. auto.
Qed.

(** ** Enqueue *)

(** C4. When the text of the form trims to the empty string, a click on
    "Speak & Queue" changes nothing at all: the queue, the flags and the
    engine are as before, and nothing is raised (the handler is total). *)
Theorem enqueue_blank_noop (s : State) (rnd : string) :
  trim (text s) = [] ->
  step s (AddToQueue rnd) = s
  /\ queue (step s (AddToQueue rnd)) = queue s
  /\ length (queue (step s (AddToQueue rnd))) = length (queue s).
Proof.
  intros H.
  assert (E : step s (AddToQueue rnd) = s).
  { unfold step, touchesDeps, handle, handleAddToQueue. rewrite H. simpl.
    rewrite Bool.eqb_reflx. reflexivity. }
  rewrite E. auto.
Qed.

Lemma enqueue_blank_noop_witness :
  let s := set_text (js "   ") (init true) in
  trim (text s) = [] /\ step s (AddToQueue "k3x9") = s.
Proof.
  intros s.
  assert (T : trim (text s) = []) by (vm_compute; reflexivity).
  split; [exact T|]. exact (proj1 (enqueue_blank_noop s "k3x9" T)).
Defined.


(** ** Clear completed *)

(** C5. [ClearCompleted] keeps, in their order, exactly the requests whose
    status is none of completed, cancelled, error: a request survives iff it
    was pending or speaking, two survivors stand in the order they had, and
    statuses [completed, speaking, error, pending] become
    [speaking, pending]. *)
Theorem clearCompleted_removes_finished (s : State) :
  let s' := step s ClearCompleted in
  queue s' = filter (fun item => negb (terminal (QueueItem.status item))) (queue s)
  /\ (forall item, In item (queue s') <->
        In item (queue s)
        /\ QueueItem.status item <> completed
        /\ QueueItem.status item <> cancelled
        /\ QueueItem.status item <> error)
  /\ (forall item, In item (queue s) ->
        QueueItem.status item = pending \/ QueueItem.status item = speaking ->
        In item (queue s'))
  /\ (forall l1 a l2 b l3, queue s' = l1 ++ a :: l2 ++ b :: l3 ->
        exists m1 m2 m3, queue s = m1 ++ a :: m2 ++ b :: m3)
  /\ (statuses s = [completed; speaking; error; pending] ->
        statuses s' = [speaking; pending]).
Proof.
  intros s'.
  assert (E : queue s' = filter (fun item => negb (terminal (QueueItem.status item))) (queue s)).
  { unfold s'. rewrite step_queue. simpl. apply filter_ext. intros a. apply keep_not_terminal. }
  split; [exact E|]. rewrite E. split; [|split; [|split]].
  - intros item. rewrite filter_In. split.
    + intros [I K]. split; [exact I|].
      destruct (QueueItem.status item); simpl in K; repeat split; congruence.
    + intros (I & N1 & N2 & N3). split; [exact I|].
      destruct (QueueItem.status item); simpl; congruence.
  - intros item I [P|P]; apply filter_In; rewrite P; auto.
  - intros l1 a l2 b l3 H.
    destruct (filter_split _ _ _ _ _ _ H) as (m1 & m2 & Q1 & _ & F2 & _).
    destruct (filter_split _ _ _ _ _ _ F2) as (m3 & m4 & -> & _ & _ & _).
    exists m1, m3, m4. exact Q1.
  - unfold statuses. rewrite E. intros H.
    destruct (queue s) as [|i1 [|i2 [|i3 [|i4 [|i5 q]]]]]; try discriminate.
    simpl in H. injection H as S1 S2 S3 S4. simpl.
    rewrite S1, S2, S3, S4. simpl. rewrite S2, S4. reflexivity.
Qed.

Lemma clearCompleted_removes_finished_witness :
  let s := set_queue [request "a" completed; request "b" speaking;
                      request "c" error; request "d" pending] (init true) in
  statuses s = [completed; speaking; error; pending]
  /\ statuses (step s ClearCompleted) = [speaking; pending].
Proof.
  intros s.
  assert (H : statuses s = [completed; speaking; error; pending]) by reflexivity.
  split; [exact H|].
  destruct (clearCompleted_removes_finished s) as (_ & _ & _ & _ & E).
  exact (E H).
Defined.

(** ** Stop *)

Lemma stop_map_idempotent (q : list QueueItem.t) :
  let f := fun entry =>
    if status_eqb (QueueItem.status entry) speaking
    then QueueItem.with_status entry cancelled else entry in
  map f (map f q) = map f q.
Proof.
  intros f. rewrite map_map. apply map_ext. intros a. unfold f.
  destruct (status_eqb (QueueItem.status a) speaking) eqn:E; simpl; [reflexivity|].
  rewrite E. reflexivity.
Qed.

(** C6. A second [Stop] right after a first one leaves the queue and the
    paused flag as the first one left them; on an empty queue [Stop] leaves
    the queue empty. *)
Theorem stop_idempotent (s : State) :
  queue (step (step s Stop) Stop) = queue (step s Stop)
  /\ isPaused (step (step s Stop) Stop) = isPaused (step s Stop)
  /\ (queue s = [] -> queue (step s Stop) = []).
Proof.
  assert (R : speechRef (step s Stop) = speechRef s).
  { pose proof (step_form s Stop) as F. unfold form in F. simpl in F.
    unfold handleStop in F. destruct (speechRef s) eqn:E; simpl in F;
      injection F; intros; congruence. }
  rewrite !step_queue, !step_isPaused. simpl. unfold handleStop. rewrite R.
  destruct (speechRef s) eqn:E; simpl.
  - rewrite step_queue. simpl. unfold handleStop. rewrite E. simpl.
    split; [apply stop_map_idempotent|]. split; [reflexivity|].
    intros ->. reflexivity.
  - rewrite step_queue, step_isPaused. simpl. unfold handleStop. rewrite E. simpl. auto.
Qed.

Lemma stop_idempotent_witness :
  queue (init true) = [] /\ queue (step (init true) Stop) = [].
Proof.
  split; [reflexivity|].
  destruct (stop_idempotent (init true)) as (_ & _ & E). exact (E eq_refl).
Defined.

(** ** The end callback *)

Lemma nth_error_map_if (X : Type) (c : X -> bool) (g : X -> X) (l : list X) i x :
  nth_error l i = Some x ->
  nth_error (map (fun y => if c y then g y else y) l) i = Some (if c x then g x else x).
Proof. intros H. rewrite nth_error_map, H. reflexivity. Qed.

(** C8. When the end callback of an utterance dispatched for request [R]
    fires, every queue entry with [R]'s id takes the status cancelled if the
    engine reports that it is speaking, completed otherwise, keeping its
    other fields; the other entries are untouched, and the paused flag is
    false afterwards. *)
Theorem onend_sets_status (s : State) (u : nat) (utterance : Utterance.t)
    (engineSpeaking : bool) :
  speechRef s = true ->
  nth_error (utterances s) u = Some utterance ->
  let R := Utterance.item utterance in
  let s' := step s (OnEnd u engineSpeaking) in
  isPaused s' = false
  /\ length (queue s') = length (queue s)
  /\ forall i entry, nth_error (queue s) i = Some entry ->
       (QueueItem.id entry = QueueItem.id R ->
          nth_error (queue s') i =
            Some (QueueItem.with_status entry
                    (if engineSpeaking then cancelled else completed)))
       /\ (QueueItem.id entry <> QueueItem.id R ->
          nth_error (queue s') i = Some entry).
Proof.
  intros Ref U R s'. unfold s'.
  rewrite step_isPaused, step_queue. simpl. rewrite U. simpl. rewrite Ref. simpl.
  split; [reflexivity|]. split; [apply length_map|].
  intros i entry H.
  rewrite (nth_error_map_if _
             (fun y => String.eqb (QueueItem.id y) (QueueItem.id (Utterance.item utterance)))
             (fun y => QueueItem.with_status y (if engineSpeaking then cancelled else completed))
             _ _ _ H).
  fold R. split; intros E.
  - apply String.eqb_eq in E. rewrite E. reflexivity.
  - apply String.eqb_neq in E. rewrite E. reflexivity.
Qed.

Lemma onend_sets_status_witness :
  let s := run (init true) [SetText (js "hi"); AddToQueue "a"; OnStart 0] in
  let utterance := Utterance.mk (js "hi") None 1 1 1 (request "a" pending) in
  let s' := step s (OnEnd 0 false) in
  speechRef s = true
  /\ nth_error (utterances s) 0 = Some utterance
  /\ statuses s = [speaking]
  /\ statuses s' = [completed]
  /\ isPaused s' = false.
Proof.
  intros s utterance s'.
  assert (R : speechRef s = true) by (vm_compute; reflexivity).
  assert (U : nth_error (utterances s) 0 = Some utterance) by (vm_compute; reflexivity).
  split; [exact R|]. split; [exact U|].
  split; [vm_compute; reflexivity|]. split; [vm_compute; reflexivity|].
  exact (proj1 (onend_sets_status s 0 utterance false R U)).
Defined.

(** ** Pause / resume *)

Lemma dispatchEffect_paused (s : State) :
  isPaused s = true -> dispatchEffect s = s.
Proof.
  intros P. unfold dispatchEffect. rewrite P.
  destruct (negb (speechRef s) || negb (supportsSpeech s)); [reflexivity|].
  destruct (find _ (queue s)); reflexivity.
Qed.

(** The dispatch effect calls the engine either not at all or with a cancel
    followed by one speak. *)
Lemma dispatchEffect_calls (s : State) :
  engineCalls (dispatchEffect s) = engineCalls s
  \/ exists utterance,
       engineCalls (dispatchEffect s) = engineCalls s ++ [Cancel; Speak utterance].
Proof.
  unfold dispatchEffect.
  destruct (negb (speechRef s) || negb (supportsSpeech s)) eqn:G; [now left|].
  destruct (find _ (queue s)); [now left|].
  destruct (isPaused s); [now left|].
  destruct (find _ (queue s)); [|now left].
  right. unfold speak. rewrite G. eexists. reflexivity.
Qed.

(** C9. With the engine at hand, [PauseResume] follows what the engine
    reports: speaking and not paused, it calls the engine's pause and
    nothing else and sets the paused flag; paused, it calls resume and
    clears the flag (the dispatch effect may then run); in every other case
    the state is unchanged and the engine is not called. *)
Theorem pauseResume_toggle (s : State) (engineSpeaking enginePaused : bool) :
  speechRef s = true ->
  let s' := step s (PauseResume engineSpeaking enginePaused) in
  (engineSpeaking = true /\ enginePaused = false ->
     engineCalls s' = engineCalls s ++ [Pause] /\ isPaused s' = true)
  /\ (enginePaused = true ->
     isPaused s' = false
     /\ (engineCalls s' = engineCalls s ++ [Resume]
         \/ exists utterance,
              engineCalls s' = engineCalls s ++ [Resume; Cancel; Speak utterance]))
  /\ (engineSpeaking = false /\ enginePaused = false -> s' = s).
Proof.
  intros Ref s'. unfold s', step. simpl. unfold handlePauseResume. rewrite Ref. simpl.
  split; [|split].
  - intros [-> ->]. simpl.
    case_if; [rewrite dispatchEffect_paused by reflexivity|]; split; reflexivity.
  - intros ->. rewrite andb_false_r. split.
    + case_if; [rewrite dispatchEffect_isPaused|]; reflexivity.
    + case_if; [|now left].
      destruct (dispatchEffect_calls (set_isPaused false (call [Resume] s)))
        as [E|[utterance E]]; rewrite E; simpl; [now left|].
      right. exists utterance. rewrite <- app_assoc. reflexivity.
  - intros [-> ->]. simpl. rewrite Bool.eqb_reflx. reflexivity.
Qed.

Lemma pauseResume_toggle_witness :
  let s := run (init true) [SetText (js "hi"); AddToQueue "a"; OnStart 0] in
  let s' := step s (PauseResume true false) in
  speechRef s = true
  /\ engineCalls s' = engineCalls s ++ [Pause]
  /\ isPaused s' = true.
Proof.
  intros s s'.
  assert (R : speechRef s = true) by (vm_compute; reflexivity).
  split; [exact R|].
  exact (proj1 (pauseResume_toggle s true false R) (conj eq_refl eq_refl)).
Defined.

(** C10. [PauseResume] never touches the request list, whatever the engine
    reports: the queue is the same list of the same records; the form, the
    capability flag and the engine reference are unchanged too. *)
Theorem pauseResume_keeps_queue (s : State) (engineSpeaking enginePaused : bool) :
  queue (step s (PauseResume engineSpeaking enginePaused)) = queue s
  /\ form (step s (PauseResume engineSpeaking enginePaused)) = form s.
Proof.
  rewrite step_queue, step_form. simpl. unfold handlePauseResume.
  destruct (negb (speechRef s)); [split; reflexivity|].
  destruct (engineSpeaking && negb enginePaused); [split; reflexivity|].
  destruct enginePaused; split; reflexivity.
Qed.

(** ** The life cycle of a request *)

(** C2, as the specification states it, fails.  The callbacks overwrite
    the status of the request with their id, whatever it is.  A request
    that [Stop] has cancelled is completed by the end callback of its
    utterance when that callback arrives afterwards (or put in error by the
    error callback).  A request that the error callback of a superseded
    utterance has put in error goes back to speaking when the utterance
    submitted last starts. *)
Lemma terminal_status_overwritten :
  let s := run (init true) [SetText (js "hi"); AddToQueue "a"; OnStart 0; Stop] in
  let t := run (init true)
             [SetText (js "hi"); AddToQueue "a"; Stop; OnError 0 (Some "canceled")] in
  reachable s
  /\ enabled s (OnEnd 0 false) = true
  /\ statuses s = [cancelled]
  /\ statuses (step s (OnEnd 0 false)) = [completed]
  /\ statuses (step s (OnError 0 (Some "interrupted"))) = [error]
  /\ reachable t
  /\ enabled t (OnStart 1) = true
  /\ statuses t = [error]
  /\ statuses (step t (OnStart 1)) = [speaking].
Proof.
  intros s t. split; [|repeat split; try (vm_compute; reflexivity)].
  - apply valid_reachable; [apply reach_init | vm_compute; reflexivity].
  - apply valid_reachable; [apply reach_init | vm_compute; reflexivity].
Qed.

Lemma evolves_refl b item : evolves b item item.
Proof. unfold evolves. auto. Qed.

Lemma evolves_trans b1 b2 x y z :
  evolves b1 x y -> evolves b2 y z -> evolves (b1 && b2) x z.
Proof.
  unfold evolves. intros (I1 & T1 & P1 & U1) (I2 & T2 & P2 & U2).
  repeat split; try congruence; auto.
  intros B. apply andb_prop in B. destruct B as [B1 B2].
  destruct (U1 B1) as [E1|[E1 C1]], (U2 B2) as [E2|[E2 C2]];
    first [left; congruence | right; split; congruence | congruence].
Qed.

Lemma nth_error_filter_firstn (X : Type) (f : X -> bool) (l : list X) i x :
  nth_error l i = Some x -> f x = true ->
  nth_error (filter f l) (length (filter f (firstn i l))) = Some x.
Proof.
  revert i. induction l as [|a l IH]; intros [|i] H Fx; simpl in *; try discriminate.
  - injection H as ->. rewrite Fx. reflexivity.
  - destruct (f a); simpl; apply IH; assumption.
Qed.

Lemma position_step (s : State) (e : Event) (i j : nat) (old : QueueItem.t) :
  nth_error (queue s) i = Some old ->
  positionAfter s e i = Some j ->
  exists new, nth_error (queue (step s e)) j = Some new /\ evolves (userOperation e) old new.
Proof.
  intros H P. unfold positionAfter in P. rewrite H in P. rewrite step_queue.
  assert (Same : forall b, j = i ->
            exists new, nth_error (queue s) j = Some new /\ evolves b old new).
  { intros b ->. exists old. split; [exact H | apply evolves_refl]. }
  assert (Map : forall b (g : QueueItem.t -> QueueItem.t), j = i -> evolves b old (g old) ->
            exists new, nth_error (map g (queue s)) j = Some new /\ evolves b old new).
  { intros b g -> E. exists (g old). split; [|exact E].
    rewrite nth_error_map, H. reflexivity. }
  destruct e; simpl in *;
    try (injection P as <-; apply Same; reflexivity).
  - (* AddToQueue *)
    injection P as <-. unfold handleAddToQueue.
    destruct (negb (truthy (trim (text s)))); [apply Same; reflexivity|].
    exists old. split; [|apply evolves_refl]. simpl.
    rewrite nth_error_app1; [exact H|]. apply nth_error_Some. congruence.
  - (* Stop *)
    injection P as <-. unfold handleStop.
    destruct (negb (speechRef s)); [apply Same; reflexivity|]. simpl.
    apply Map; [reflexivity|].
    destruct (status_eqb (QueueItem.status old) speaking) eqn:E; [|apply evolves_refl].
    apply status_eqb_eq in E. unfold evolves. simpl. rewrite E.
    repeat split; try discriminate. auto.
  - (* PauseResume *)
    injection P as <-. unfold handlePauseResume.
    destruct (negb (speechRef s)); [apply Same; reflexivity|].
    destruct (engineSpeaking && negb enginePaused); [apply Same; reflexivity|].
    destruct enginePaused; apply Same; reflexivity.
  - (* ClearCompleted *)
    destruct (terminal (QueueItem.status old)) eqn:T; [discriminate|].
    injection P as <-. exists old. split; [|apply evolves_refl].
    rewrite (filter_ext _ _ keep_not_terminal).
    apply nth_error_filter_firstn; [exact H|]. rewrite T. reflexivity.
  - (* OnStart *)
    injection P as <-.
    destruct (nth_error (utterances s) u); [|apply Same; reflexivity].
    assert (M : exists new,
               nth_error (queue (onstart (Utterance.item t) s)) i = Some new
               /\ evolves false old new).
    { apply Map; [reflexivity|]. case_if; [|apply evolves_refl].
      unfold evolves. simpl. repeat split; discriminate. }
    case_if; exact M.
  - (* OnEnd *)
    injection P as <-.
    destruct (nth_error (utterances s) u); [|apply Same; reflexivity].
    apply Map; [reflexivity|]. case_if; [|apply evolves_refl].
    unfold evolves. simpl. repeat split; try discriminate.
    destruct (speechRef s && engineSpeaking); discriminate.
  - (* OnError *)
    injection P as <-.
    destruct (nth_error (utterances s) u); [|apply Same; reflexivity].
    apply Map; [reflexivity|]. case_if; [|apply evolves_refl].
    unfold evolves. simpl. repeat split; discriminate.
Qed.

Lemma position_run (es : list Event) (s : State) (i j : nat) (old : QueueItem.t) :
  nth_error (queue s) i = Some old ->
  positionAfterAll s es i = Some j ->
  exists new,
    nth_error (queue (run s es)) j = Some new
    /\ evolves (forallb userOperation es) old new.
Proof.
  revert s i old. induction es as [|e es IH]; intros s i old H P; simpl in *.
  - rewrite H in P. injection P as <-. exists old. split; [exact H | apply evolves_refl].
  - destruct (positionAfter s e i) as [k|] eqn:K; [|discriminate].
    destruct (position_step s e i k old H K) as (mid & Hmid & E1).
    destruct (IH (step s e) k mid Hmid P) as (new & Hnew & E2).
    exists new. split; [exact Hnew|]. exact (evolves_trans _ _ _ _ _ E1 E2).
Qed.

(** A request followed through any sequence of events, from position [i]
    of the queue to the position [j] where it ends up. *)
Lemma followed_request (es : list Event) (s : State) (i j : nat) (old : QueueItem.t) :
  nth_error (queue s) i = Some old ->
  positionAfterAll s es i = Some j ->
  exists new,
    nth_error (queue (run s es)) j = Some new
    /\ QueueItem.id new = QueueItem.id old
    /\ QueueItem.text new = QueueItem.text old
    /\ (QueueItem.status old <> pending -> QueueItem.status new <> pending)
    /\ (forallb userOperation es = true ->
          (QueueItem.status new = QueueItem.status old
           \/ (QueueItem.status old = speaking /\ QueueItem.status new = cancelled))
          /\ (terminal (QueueItem.status old) = true ->
                QueueItem.status new = QueueItem.status old)).
Proof.
  intros H P.
  destruct (position_run es s i j old H P) as (new & Hnew & I & T & Pn & U).
  exists new. split; [exact Hnew|]. split; [exact I|]. split; [exact T|].
  split; [intros N P'; exact (N (Pn P'))|].
  intros Only. split; [exact (U Only)|].
  intros Term. destruct (U Only) as [E|[E _]]; [exact E|].
  rewrite E in Term. discriminate.
Qed.

(** What the three callbacks of a dispatched utterance make of the entry at
    position [i], whatever its status is. *)
Lemma callbacks_overwrite (s : State) (u : nat) (utterance : Utterance.t)
    (engineSpeaking : bool) (reason : option string) (i : nat) (entry : QueueItem.t) :
  nth_error (utterances s) u = Some utterance ->
  nth_error (queue s) i = Some entry ->
  let mine := String.eqb (QueueItem.id entry) (QueueItem.id (Utterance.item utterance)) in
  nth_error (queue (step s (OnStart u))) i
  = Some (if mine then QueueItem.with_status entry speaking else entry)
  /\ nth_error (queue (step s (OnEnd u engineSpeaking))) i
     = Some (if mine
             then QueueItem.with_status entry
                    (if speechRef s && engineSpeaking then cancelled else completed)
             else entry)
  /\ nth_error (queue (step s (OnError u reason))) i
     = Some (if mine
             then QueueItem.with_status_error entry error
                    (match reason with Some r => r | None => "Unknown error" end)
             else entry).
Proof.
  intros U H mine. rewrite !step_queue. unfold handle. rewrite U.
  assert (S : queue (if S u =? length (utterances s)
                     then set_engineStarted true (onstart (Utterance.item utterance) s)
                     else onstart (Utterance.item utterance) s)
              = queue (onstart (Utterance.item utterance) s)).
  { destruct (S u =? length (utterances s)); reflexivity. }
  rewrite S. simpl. rewrite !nth_error_map, H. simpl. fold mine.
  repeat split; destruct mine; reflexivity.
Qed.

(** C2, amended.  Follow a request through any sequence of events, from
    position [i] of the queue to the position [j] where it ends up.  It
    keeps its id and text, and if it had left pending it is not pending
    again.  If all the events are user operations (no engine callback), its
    status is unchanged, or went from speaking to cancelled (by [Stop]); in
    particular a terminal status stays as it is.  A callback of a
    dispatched utterance, however, sets the status of every entry that
    carries the id of its request, whatever that status is: the start
    callback to speaking, the end callback to cancelled if the engine
    reports speaking and to completed otherwise, the error callback to
    error; the entries with another id are left as they are.  So a terminal
    status is overwritten by a later callback. *)
Theorem request_lifecycle :
  (forall es s i j old,
     nth_error (queue s) i = Some old ->
     positionAfterAll s es i = Some j ->
     exists new,
       nth_error (queue (run s es)) j = Some new
       /\ QueueItem.id new = QueueItem.id old
       /\ QueueItem.text new = QueueItem.text old
       /\ (QueueItem.status old <> pending -> QueueItem.status new <> pending)
       /\ (forallb userOperation es = true ->
             (QueueItem.status new = QueueItem.status old
              \/ (QueueItem.status old = speaking /\ QueueItem.status new = cancelled))
             /\ (terminal (QueueItem.status old) = true ->
                   QueueItem.status new = QueueItem.status old)))
  /\ (forall s u utterance engineSpeaking reason i entry,
        nth_error (utterances s) u = Some utterance ->
        nth_error (queue s) i = Some entry ->
        (QueueItem.id entry = QueueItem.id (Utterance.item utterance) ->
           nth_error (queue (step s (OnStart u))) i
           = Some (QueueItem.with_status entry speaking)
           /\ nth_error (queue (step s (OnEnd u engineSpeaking))) i
              = Some (QueueItem.with_status entry
                        (if speechRef s && engineSpeaking then cancelled else completed))
           /\ nth_error (queue (step s (OnError u reason))) i
              = Some (QueueItem.with_status_error entry error
                        (match reason with Some r => r | None => "Unknown error" end)))
        /\ (QueueItem.id entry <> QueueItem.id (Utterance.item utterance) ->
           nth_error (queue (step s (OnStart u))) i = Some entry
           /\ nth_error (queue (step s (OnEnd u engineSpeaking))) i = Some entry
           /\ nth_error (queue (step s (OnError u reason))) i = Some entry)).
Proof.
  split; [exact followed_request|].
  intros s u utterance engineSpeaking reason i entry U H.
  pose proof (callbacks_overwrite s u utterance engineSpeaking reason i entry U H) as C.
  cbv zeta in C. split; intros E.
  - apply String.eqb_eq in E. rewrite E in C. exact C.
  - apply String.eqb_neq in E. rewrite E in C. exact C.
Qed.

Lemma request_lifecycle_witness :
  let s := run (init true)
             [SetText (js "hi"); AddToQueue "a"; OnStart 0; AddToQueue "b"] in
  let es := [Stop; AddToQueue "c"; PauseResume false true] in
  let old := request "a" speaking in
  let t := run (init true)
             [SetText (js "hi"); AddToQueue "a"; Stop; OnError 0 (Some "canceled")] in
  let utterance := Utterance.mk (js "hi") None 1 1 1 (request "a" pending) in
  let entry := QueueItem.mk "a" (js "hi") "" 1 1 1 error (Some "canceled") in
  (nth_error (queue s) 0 = Some old
   /\ positionAfterAll s es 0 = Some 0
   /\ forallb userOperation es = true
   /\ statuses s = [speaking; pending]
   /\ statuses (run s es) = [cancelled; pending; pending]
   /\ exists new,
        nth_error (queue (run s es)) 0 = Some new
        /\ QueueItem.status new <> pending
        /\ (QueueItem.status new = QueueItem.status old
            \/ (QueueItem.status old = speaking /\ QueueItem.status new = cancelled)))
  /\ (nth_error (utterances t) 1 = Some utterance
      /\ nth_error (queue t) 0 = Some entry
      /\ QueueItem.id entry = QueueItem.id (Utterance.item utterance)
      /\ nth_error (queue (step t (OnStart 1))) 0
         = Some (QueueItem.with_status entry speaking)).
Proof.
  intros s es old t utterance entry. split.
  - assert (H : nth_error (queue s) 0 = Some old) by (vm_compute; reflexivity).
    assert (P : positionAfterAll s es 0 = Some 0) by (vm_compute; reflexivity).
    assert (O : forallb userOperation es = true) by reflexivity.
    split; [exact H|]. split; [exact P|]. split; [exact O|].
    split; [vm_compute; reflexivity|]. split; [vm_compute; reflexivity|].
    destruct (proj1 request_lifecycle es s 0 0 old H P) as (new & Hnew & _ & _ & Pn & Us).
    exists new. split; [exact Hnew|]. split; [apply Pn; discriminate | exact (proj1 (Us O))].
  - assert (U : nth_error (utterances t) 1 = Some utterance) by (vm_compute; reflexivity).
    assert (H : nth_error (queue t) 0 = Some entry) by (vm_compute; reflexivity).
    assert (E : QueueItem.id entry = QueueItem.id (Utterance.item utterance)) by reflexivity.
    split; [exact U|]. split; [exact H|]. split; [exact E|].
    exact (proj1 (proj1 (proj2 request_lifecycle t 1 utterance false None 0 entry U H) E)).
Defined.

(** ** At most one request is speaking *)

Lemma speakingCount_map_le (g : QueueItem.t -> QueueItem.t) (q : list QueueItem.t) :
  (forall x, isSpeaking (g x) = true -> isSpeaking x = true) ->
  speakingCount (map g q) <= speakingCount q.
Proof.
  intros G. unfold speakingCount. induction q as [|a q IH]; simpl; [lia|].
  destruct (isSpeaking (g a)) eqn:E.
  - rewrite (G a E). simpl. lia.
  - destruct (isSpeaking a); simpl; lia.
Qed.

Lemma speakingCount_filter_le (f : QueueItem.t -> bool) (q : list QueueItem.t) :
  speakingCount (filter f q) <= speakingCount q.
Proof.
  unfold speakingCount. induction q as [|a q IH]; simpl; [lia|].
  destruct (f a); simpl; destruct (isSpeaking a); simpl; lia.
Qed.

Lemma speakingCount_app (q1 q2 : list QueueItem.t) :
  speakingCount (q1 ++ q2) = speakingCount q1 + speakingCount q2.
Proof. unfold speakingCount. rewrite filter_app, length_app. reflexivity. Qed.

Lemma find_speaking_none (q : list QueueItem.t) :
  find (fun item => status_eqb (QueueItem.status item) speaking) q = None ->
  speakingCount q = 0.
Proof.
  unfold speakingCount, isSpeaking. induction q as [|a q IH]; simpl; [reflexivity|].
  destruct (status_eqb (QueueItem.status a) speaking); [discriminate | exact IH].
Qed.

Lemma map_other_ids (g : QueueItem.t -> QueueItem.t) (id0 : string) (q : list QueueItem.t) :
  ~ In id0 (map QueueItem.id q) ->
  map (fun entry => if String.eqb (QueueItem.id entry) id0 then g entry else entry) q = q.
Proof.
  induction q as [|a q IH]; simpl; intros N; [reflexivity|].
  destruct (String.eqb_spec (QueueItem.id a) id0) as [E|E]; [tauto|].
  rewrite IH; tauto.
Qed.

Lemma onstart_speakingCount (id0 : string) (q : list QueueItem.t) :
  NoDup (map QueueItem.id q) ->
  speakingCount q = 0 ->
  speakingCount (map (fun entry =>
    if String.eqb (QueueItem.id entry) id0
    then QueueItem.with_status entry speaking else entry) q) <= 1.
Proof.
  induction q as [|a q IH]; simpl; intros ND Z; [unfold speakingCount; simpl; lia|].
  inversion ND as [|? ? NI ND']; subst.
  change (a :: q) with ([a] ++ q) in Z. rewrite speakingCount_app in Z.
  destruct (String.eqb_spec (QueueItem.id a) id0) as [E|E].
  - subst id0. rewrite map_other_ids by exact NI.
    change (?x :: q) with ([x] ++ q). rewrite speakingCount_app.
    unfold speakingCount at 1. simpl. lia.
  - change (a :: ?l) with ([a] ++ l). rewrite speakingCount_app.
    specialize (IH ND'). lia.
Qed.

Lemma map_ids_preserved (g : QueueItem.t -> QueueItem.t) (q : list QueueItem.t) :
  (forall x, QueueItem.id (g x) = QueueItem.id x) ->
  map QueueItem.id (map g q) = map QueueItem.id q.
Proof. intros G. rewrite map_map. apply map_ext. exact G. Qed.

Lemma NoDup_map_filter (X Y : Type) (h : X -> Y) (f : X -> bool) (l : list X) :
  NoDup (map h l) -> NoDup (map h (filter f l)).
Proof.
  induction l as [|a l IH]; simpl; intros ND; [constructor|].
  inversion ND as [|? ? NI ND']; subst.
  destruct (f a); simpl; [|auto].
  constructor; [|auto].
  intros I. apply NI. apply in_map_iff in I. destruct I as (x & E & I).
  apply filter_In in I. apply in_map_iff. exists x. tauto.
Qed.

Lemma existsb_eqb_false (x : string) (l : list string) :
  existsb (String.eqb x) l = false <-> ~ In x l.
Proof.
  split.
  - intros E I. assert (T : existsb (String.eqb x) l = true).
    { apply existsb_exists. exists x. split; [exact I | apply String.eqb_refl]. }
    congruence.
  - intros N. destruct (existsb (String.eqb x) l) eqn:E; [|reflexivity].
    apply existsb_exists in E. destruct E as (y & I & E).
    apply String.eqb_eq in E. subst y. tauto.
Qed.

Lemma exclusive_map (s s' : State) (g : QueueItem.t -> QueueItem.t) :
  exclusive s ->
  queue s' = map g (queue s) ->
  engineStarted s' = engineStarted s ->
  (forall x, QueueItem.id (g x) = QueueItem.id x) ->
  (forall x, isSpeaking (g x) = true -> isSpeaking x = true) ->
  exclusive s'.
Proof.
  intros (ND & C & Z) Q S I G. unfold exclusive. rewrite Q, S.
  rewrite (map_ids_preserved _ _ I).
  pose proof (speakingCount_map_le g (queue s) G) as L.
  split; [exact ND|]. split; [lia|]. intros E. specialize (Z E). lia.
Qed.

Lemma exclusive_same (s s' : State) :
  exclusive s -> queue s' = queue s -> engineStarted s' = engineStarted s -> exclusive s'.
Proof. unfold exclusive. intros H -> ->. exact H. Qed.

Lemma handle_exclusive (s : State) (e : Event) :
  exclusive s -> enabled s e = true -> exclusive (handle s e).
Proof.
  intros X En. destruct e; simpl in *;
    try (apply (exclusive_same s); [exact X | reflexivity | reflexivity]).
  - (* AddToQueue *)
    unfold handleAddToQueue.
    destruct (negb (truthy (trim (text s)))); [exact X|].
    destruct X as (ND & C & Z). unfold exclusive. simpl.
    apply andb_prop in En. destruct En as [Fresh _].
    apply negb_true_iff, existsb_eqb_false in Fresh.
    rewrite map_app, speakingCount_app. simpl.
    split.
    + apply NoDup_app; [exact ND | repeat constructor; intros [] |].
      intros a I [<-|[]]. exact (Fresh I).
    + unfold speakingCount at 2 4. simpl. split; [lia|]. intros E. specialize (Z E). lia.
  - (* Stop *)
    unfold handleStop. destruct (negb (speechRef s)); [exact X|].
    eapply exclusive_map; [exact X | reflexivity | reflexivity | |];
      intros x; cbv beta; case_if; try reflexivity; unfold isSpeaking; simpl; congruence.
  - (* PauseResume *)
    unfold handlePauseResume. destruct (negb (speechRef s)); [exact X|].
    destruct (engineSpeaking && negb enginePaused);
      [apply (exclusive_same s); [exact X | reflexivity | reflexivity]|].
    destruct enginePaused; [|exact X].
    apply (exclusive_same s); [exact X | reflexivity | reflexivity].
  - (* ClearCompleted *)
    destruct X as (ND & C & Z). unfold exclusive. simpl.
    pose proof (speakingCount_filter_le
      (fun item => status_eqb (QueueItem.status item) pending
                   || status_eqb (QueueItem.status item) speaking) (queue s)) as L.
    split; [apply NoDup_map_filter; exact ND|]. split; [lia|].
    intros E. specialize (Z E). lia.
  - (* OnStart *)
    apply andb_prop in En. destruct En as [Last NotStarted].
    apply negb_true_iff in NotStarted.
    destruct (nth_error (utterances s) u) as [utterance|]; [|exact X].
    rewrite Last. destruct X as (ND & C & Z). specialize (Z NotStarted).
    unfold exclusive. simpl.
    rewrite map_ids_preserved by (intros x; cbv beta; case_if; reflexivity).
    split; [exact ND|]. split; [apply onstart_speakingCount; assumption | discriminate].
  - (* OnEnd *)
    destruct (nth_error (utterances s) u) as [utterance|]; [|exact X].
    eapply exclusive_map; [exact X | reflexivity | reflexivity | |];
      intros x; cbv beta; case_if; try reflexivity; unfold isSpeaking; simpl; [|congruence].
    destruct (speechRef s && engineSpeaking); discriminate.
  - (* OnError *)
    destruct (nth_error (utterances s) u) as [utterance|]; [|exact X].
    eapply exclusive_map; [exact X | reflexivity | reflexivity | |];
      intros x; cbv beta; case_if; try reflexivity; unfold isSpeaking; simpl; congruence.
Qed.

Lemma dispatchEffect_exclusive (s : State) : exclusive s -> exclusive (dispatchEffect s).
Proof.
  intros X. unfold dispatchEffect.
  destruct (negb (speechRef s) || negb (supportsSpeech s)) eqn:G; [exact X|].
  destruct (find _ (queue s)) eqn:F; [exact X|].
  destruct (isPaused s); [exact X|].
  destruct (find (fun item => status_eqb (QueueItem.status item) pending) (queue s));
    [|exact X].
  destruct X as (ND & C & Z). unfold exclusive. rewrite speak_queue.
  rewrite (find_speaking_none _ F).
  split; [exact ND|]. split; [lia | reflexivity].
Qed.

Lemma reachable_exclusive (s : State) : reachable s -> exclusive s.
Proof.
  induction 1 as [supported | s e R IH En].
  - unfold exclusive. simpl. split; [constructor|]. unfold speakingCount. simpl. split; [lia|auto].
  - unfold step. pose proof (handle_exclusive s e IH En) as H.
    case_if; [apply dispatchEffect_exclusive|]; exact H.
Qed.

(** The dispatch effect calls the engine only when no request is speaking. *)
Lemma dispatch_only_when_silent (s : State) :
  engineCalls (dispatchEffect s) <> engineCalls s -> speakingCount (queue s) = 0.
Proof.
  unfold dispatchEffect.
  destruct (negb (speechRef s) || negb (supportsSpeech s)); [congruence|].
  destruct (find _ (queue s)) eqn:F; [congruence|].
  intros _. apply find_speaking_none. exact F.
Qed.

(** No event but a start callback makes a request speaking. *)
Lemma only_onstart_sets_speaking (s : State) (e : Event) :
  (forall u, e <> OnStart u) ->
  speakingCount (queue (step s e)) <= speakingCount (queue s).
Proof.
  intros N. rewrite step_queue. destruct e; simpl; try lia.
  - unfold handleAddToQueue. destruct (negb (truthy (trim (text s)))); [lia|].
    simpl. rewrite speakingCount_app. unfold speakingCount at 2. simpl. lia.
  - unfold handleStop. destruct (negb (speechRef s)); [lia|]. simpl.
    apply speakingCount_map_le.
    intros x; cbv beta; case_if; unfold isSpeaking; simpl; congruence.
  - unfold handlePauseResume. destruct (negb (speechRef s)); [lia|].
    destruct (engineSpeaking && negb enginePaused); [simpl; lia|].
    destruct enginePaused; simpl; lia.
  - apply speakingCount_filter_le.
  - exfalso. exact (N u eq_refl).
  - destruct (nth_error (utterances s) u); [|lia]. simpl.
    apply speakingCount_map_le.
    intros x; cbv beta; case_if; unfold isSpeaking; simpl; [|congruence].
    destruct (speechRef s && engineSpeaking); discriminate.
  - destruct (nth_error (utterances s) u); [|lia]. simpl.
    apply speakingCount_map_le.
    intros x; cbv beta; case_if; unfold isSpeaking; simpl; congruence.
Qed.

(** C1. In every reachable state at most one request of the queue is
    speaking.  The two facts the invariant rests on hold as well: the
    dispatch effect calls the engine only when no request is speaking, and
    no event other than a start callback raises the number of speaking
    requests. *)
Theorem at_most_one_speaking (s : State) :
  reachable s ->
  speakingCount (queue s) <= 1
  /\ (engineCalls (dispatchEffect s) <> engineCalls s -> speakingCount (queue s) = 0)
  /\ (forall e, (forall u, e <> OnStart u) ->
        speakingCount (queue (step s e)) <= speakingCount (queue s)).
Proof.
  intros R. split; [apply (reachable_exclusive s R)|].
  split; [apply dispatch_only_when_silent | apply only_onstart_sets_speaking].
Qed.

Lemma at_most_one_speaking_witness :
  let s := run (init true)
             [SetText (js "hi"); AddToQueue "a"; AddToQueue "b"; OnStart 1; AddToQueue "c"] in
  reachable s
  /\ statuses s = [speaking; pending; pending]
  /\ speakingCount (queue s) <= 1.
Proof.
  intros s.
  assert (R : reachable s).
  { apply valid_reachable; [apply reach_init | vm_compute; reflexivity]. }
  split; [exact R|]. split; [vm_compute; reflexivity|].
  exact (proj1 (at_most_one_speaking s R)).
Defined.

(** The distinctness of the ids is what the invariant needs from
    [randomId]: the start callback marks every entry that carries the id of
    its request.  Were the same token drawn twice (an event [enabled]
    excludes), both entries would be speaking. *)
Remark repeated_id_both_speaking :
  let es := [SetText (js "hi"); AddToQueue "a"; AddToQueue "a"; OnStart 1] in
  valid (init true) es = false
  /\ statuses (run (init true) es) = [speaking; speaking].
Proof. split; vm_compute; reflexivity. Qed.

(** ** First in, first out *)

Lemma spoken_app (c1 c2 : list EngineCall) : spoken (c1 ++ c2) = spoken c1 ++ spoken c2.
Proof.
  induction c1 as [|c c1 IH]; simpl; [reflexivity|].
  destruct c; simpl; rewrite IH; reflexivity.
Qed.

Lemma handle_dispatched (s : State) (e : Event) : dispatched (handle s e) = dispatched s.
Proof.
  unfold dispatched, utterances. f_equal.
  destruct e; unfold handle; try reflexivity.
  - unfold handleAddToQueue. case_if; reflexivity.
  - unfold handleStop. case_if; [reflexivity|]. cbn -[spoken].
    rewrite spoken_app. apply app_nil_r.
  - unfold handlePauseResume. case_if; [reflexivity|].
    case_if; [cbn -[spoken]; rewrite spoken_app; apply app_nil_r|].
    case_if; [cbn -[spoken]; rewrite spoken_app; apply app_nil_r | reflexivity].
  - destruct (nth_error (utterances s) u); [|reflexivity]. case_if; reflexivity.
  - destruct (nth_error (utterances s) u); reflexivity.
  - destruct (nth_error (utterances s) u); reflexivity.
Qed.

Lemma speak_calls (s : State) (item : QueueItem.t) :
  engineReady s = true ->
  engineCalls (speak item s) = engineCalls s ++ [Cancel; Speak (utteranceFor s item)].
Proof.
  unfold engineReady, speak. intros R. apply andb_prop in R. destruct R as [-> ->].
  reflexivity.
Qed.

Lemma speak_dispatched (s : State) (item : QueueItem.t) :
  engineReady s = true ->
  dispatched (speak item s) = dispatched s ++ [QueueItem.id item].
Proof.
  intros R. unfold dispatched, utterances. rewrite (speak_calls s item R).
  rewrite spoken_app, map_app. reflexivity.
Qed.

(** [Array.prototype.find] returns the first element that satisfies the
    predicate. *)
Lemma find_split (X : Type) (f : X -> bool) (l : list X) (x : X) :
  find f l = Some x ->
  exists l1 l2, l = l1 ++ x :: l2 /\ f x = true /\ forall y, In y l1 -> f y = false.
Proof.
  induction l as [|a l IH]; simpl; [discriminate|].
  destruct (f a) eqn:Fa.
  - intros E. injection E as ->. exists [], l. simpl. repeat split; [exact Fa | tauto].
  - intros E. destruct (IH E) as (l1 & l2 & -> & Fx & N).
    exists (a :: l1), l2. simpl. repeat split; [exact Fx|].
    intros y [<-|I]; auto.
Qed.

Lemma find_first (X : Type) (f : X -> bool) (l1 l2 : list X) (x : X) :
  (forall y, In y l1 -> f y = false) -> f x = true ->
  find f (l1 ++ x :: l2) = Some x.
Proof.
  intros N Fx. induction l1 as [|a l1 IH]; simpl.
  - rewrite Fx. reflexivity.
  - rewrite (N a (or_introl eq_refl)). apply IH. intros y I. apply N. right. exact I.
Qed.

Lemma NoDup_split_unique (X : Type) (l1 l2 m1 m2 : list X) (i : X) :
  NoDup (l1 ++ i :: l2) -> l1 ++ i :: l2 = m1 ++ i :: m2 -> l1 = m1.
Proof.
  revert m1. induction l1 as [|a l1 IH]; intros [|b m1] ND E; simpl in *.
  - reflexivity.
  - injection E as E1 E2. inversion ND as [|? ? NI _]; subst.
    exfalso. apply NI. apply in_or_app. right. left. reflexivity.
  - injection E as E1 E2. inversion ND as [|? ? NI _]; subst.
    exfalso. apply NI. apply in_or_app. right. left. reflexivity.
  - injection E as E1 E2. inversion ND as [|? ? _ ND']; subst.
    f_equal. apply IH; assumption.
Qed.

Lemma map_filter_split (X Y : Type) (h : X -> Y) (f : X -> bool) (l : list X)
    (l1 l2 : list Y) (i : Y) :
  map h (filter f l) = l1 ++ i :: l2 ->
  exists m1 m2, map h l = m1 ++ i :: m2 /\ incl l1 m1 /\ incl l2 m2.
Proof.
  revert l1. induction l as [|a l IH]; intros l1 E; simpl in *.
  - destruct l1; discriminate.
  - destruct (f a).
    + destruct l1 as [|b l1]; simpl in E; injection E as E1 E2.
      * subst i l2. exists [], (map h l). split; [reflexivity|].
        split; [apply incl_nil_l|].
        intros y Iy. apply in_map_iff in Iy. destruct Iy as (x & Hx & Ix).
        apply filter_In in Ix. apply in_map_iff. exists x. tauto.
      * subst b. destruct (IH _ E2) as (m1 & m2 & -> & I1 & I2).
        exists (h a :: m1), m2. split; [reflexivity|]. split; [|exact I2].
        apply incl_cons; [left; reflexivity | apply incl_tl; exact I1].
    + destruct (IH _ E) as (m1 & m2 & -> & I1 & I2).
      exists (h a :: m1), m2. split; [reflexivity|]. split; [apply incl_tl; exact I1 | exact I2].
Qed.

Lemma snoc_split (X : Type) (l l1 l2 : list X) (a i : X) :
  l ++ [a] = l1 ++ i :: l2 ->
  (l2 = [] /\ i = a /\ l = l1) \/ exists l2', l2 = l2' ++ [a] /\ l = l1 ++ i :: l2'.
Proof.
  destruct l2 as [|b l2 _] using rev_ind; intros E.
  - left. apply app_inj_tail in E. destruct E as [-> ->]. auto.
  - right.
    change (l1 ++ i :: l2 ++ [b]) with (l1 ++ (i :: l2) ++ [b]) in E.
    rewrite app_assoc in E. apply app_inj_tail in E. destruct E as [-> ->].
    exists l2. split; reflexivity.
Qed.

Lemma fifoOn_map (d : list string) (q : list QueueItem.t) (g : QueueItem.t -> QueueItem.t) :
  fifoOn d q ->
  (forall x, QueueItem.id (g x) = QueueItem.id x) ->
  (forall x, QueueItem.status (g x) <> pending ->
             QueueItem.status x <> pending \/ In (QueueItem.id x) d) ->
  fifoOn d (map g q).
Proof.
  intros [I2 I4] Gid Gst. split.
  - intros y Iy Ny. apply in_map_iff in Iy. destruct Iy as (x & <- & Ix).
    rewrite Gid. destruct (Gst x Ny) as [N|D]; [exact (I2 x Ix N) | exact D].
  - rewrite (map_ids_preserved _ _ Gid). exact I4.
Qed.

Lemma fifoOn_filter (d : list string) (q : list QueueItem.t) (f : QueueItem.t -> bool) :
  fifoOn d q -> fifoOn d (filter f q).
Proof.
  intros [I2 I4]. split.
  - intros x Ix. apply filter_In in Ix. apply I2. tauto.
  - intros l1 i l2 j E Ij Dj.
    destruct (map_filter_split _ _ _ _ _ _ _ _ E) as (m1 & m2 & E' & _ & Inc).
    exact (I4 m1 i m2 j E' (Inc j Ij) Dj).
Qed.

Lemma fifoOn_enqueue (d : list string) (q : list QueueItem.t) (item : QueueItem.t) :
  fifoOn d q ->
  QueueItem.status item = pending ->
  ~ In (QueueItem.id item) d ->
  fifoOn d (q ++ [item]).
Proof.
  intros [I2 I4] P Fresh. split.
  - intros x Ix Nx. apply in_app_or in Ix. destruct Ix as [Ix|[<-|[]]]; [auto | congruence].
  - intros l1 i l2 j E Ij Dj. rewrite map_app in E. simpl in E.
    apply snoc_split in E. destruct E as [(-> & _ & _)|(l2' & -> & E)]; [destruct Ij|].
    apply in_app_or in Ij. destruct Ij as [Ij|[<-|[]]]; [|tauto].
    exact (I4 l1 i l2' j E Ij Dj).
Qed.

Lemma fifoOn_dispatch (d : list string) (q : list QueueItem.t) (next : QueueItem.t) :
  fifoOn d q ->
  NoDup (map QueueItem.id q) ->
  find (fun item => status_eqb (QueueItem.status item) pending) q = Some next ->
  fifoOn (d ++ [QueueItem.id next]) q.
Proof.
  intros [I2 I4] ND F. split.
  - intros x Ix Nx. apply in_or_app. left. auto.
  - intros l1 i l2 j E Ij Dj.
    assert (Old : forall d1 d2, d = d1 ++ i :: d2 -> ~ In j d1 ->
              exists d1' d2', d ++ [QueueItem.id next] = d1' ++ i :: d2' /\ ~ In j d1').
    { intros d1 d2 -> N. exists d1, (d2 ++ [QueueItem.id next]).
      rewrite <- app_assoc. split; [reflexivity | exact N]. }
    destruct (in_dec string_dec j d) as [Dj'|Nj].
    { destruct (I4 l1 i l2 j E Ij Dj') as (d1 & d2 & Ed & N). exact (Old d1 d2 Ed N). }
    apply in_app_or in Dj. destruct Dj as [Dj|[<-|[]]]; [tauto|].
    (* the request dispatched now stands behind [i]: [i] left pending before *)
    apply find_split in F. destruct F as (m1 & m2 & Q & _ & Before).
    apply in_split in Ij. destruct Ij as (l2a & l2b & ->).
    assert (L : l1 ++ i :: l2a = map QueueItem.id m1).
    { apply (NoDup_split_unique _ (l1 ++ i :: l2a) l2b
               (map QueueItem.id m1) (map QueueItem.id m2) (QueueItem.id next)).
      - rewrite <- app_assoc. simpl. rewrite <- E. exact ND.
      - rewrite <- app_assoc. simpl. rewrite <- E, Q, map_app. reflexivity. }
    assert (Ii : In i (map QueueItem.id m1)).
    { rewrite <- L. apply in_or_app. right. left. reflexivity. }
    apply in_map_iff in Ii. destruct Ii as (y & <- & Iy).
    assert (Dy : In (QueueItem.id y) d).
    { apply I2.
      - rewrite Q. apply in_or_app. left. exact Iy.
      - intros P. specialize (Before y Iy). cbv beta in Before.
        rewrite P in Before. discriminate. }
    apply in_split in Dy. destruct Dy as (d1 & d2 & Ed).
    apply (Old d1 d2 Ed). intros N. apply Nj. rewrite Ed. apply in_or_app. left. exact N.
Qed.

Lemma fifoOn_callback (d : list string) (q : list QueueItem.t) (id0 : string)
    (g : QueueItem.t -> QueueItem.t) :
  fifoOn d q ->
  In id0 d ->
  (forall x, QueueItem.id (g x) = QueueItem.id x) ->
  fifoOn d (map (fun entry =>
    if String.eqb (QueueItem.id entry) id0 then g entry else entry) q).
Proof.
  intros X D G. apply fifoOn_map; [exact X | |]; intros x;
    destruct (String.eqb_spec (QueueItem.id x) id0) as [E|E]; auto.
  intros _. right. rewrite E. exact D.
Qed.

Lemma utterance_dispatched (s : State) (u : nat) (utterance : Utterance.t) :
  nth_error (utterances s) u = Some utterance ->
  In (QueueItem.id (Utterance.item utterance)) (dispatched s).
Proof.
  intros U. unfold dispatched.
  apply (in_map (fun x => QueueItem.id (Utterance.item x))).
  exact (nth_error_In _ _ U).
Qed.

Lemma handle_fifo (s : State) (e : Event) :
  fifo s -> enabled s e = true -> fifo (handle s e).
Proof.
  unfold fifo. intros X En. rewrite handle_dispatched.
  destruct e; unfold handle; try exact X.
  - (* AddToQueue *)
    unfold handleAddToQueue. case_if; [exact X|]. cbn [queue setQueue set_queue].
    apply fifoOn_enqueue; [exact X | reflexivity|].
    simpl in En. apply andb_prop in En. destruct En as [_ Fresh].
    apply negb_true_iff, existsb_eqb_false in Fresh. exact Fresh.
  - (* Stop *)
    unfold handleStop. case_if; [exact X|]. cbn [queue setQueue set_queue set_isPaused].
    apply fifoOn_map; [exact X | |]; intros x;
      destruct (status_eqb (QueueItem.status x) speaking) eqn:E; auto.
    intros _. left. apply status_eqb_eq in E. congruence.
  - (* PauseResume *)
    unfold handlePauseResume. case_if; [exact X|]. case_if; [exact X|]. case_if; exact X.
  - (* ClearCompleted *)
    apply fifoOn_filter. exact X.
  - (* OnStart *)
    destruct (nth_error (utterances s) u) as [utterance|] eqn:U; [|exact X].
    assert (M : fifoOn (dispatched s) (queue (onstart (Utterance.item utterance) s))).
    { apply fifoOn_callback;
        [exact X | exact (utterance_dispatched s u utterance U) | reflexivity]. }
    case_if; exact M.
  - (* OnEnd *)
    destruct (nth_error (utterances s) u) as [utterance|] eqn:U; [|exact X].
    apply (fifoOn_callback _ _ _
             (fun entry => QueueItem.with_status entry
                (if speechRef s && engineSpeaking then cancelled else completed)));
      [exact X | exact (utterance_dispatched s u utterance U) | reflexivity].
  - (* OnError *)
    destruct (nth_error (utterances s) u) as [utterance|] eqn:U; [|exact X].
    apply (fifoOn_callback _ _ _
             (fun entry => QueueItem.with_status_error entry error
                (match reason with Some r => r | None => "Unknown error" end)));
      [exact X | exact (utterance_dispatched s u utterance U) | reflexivity].
Qed.

Lemma dispatchEffect_fifo (s : State) :
  NoDup (map QueueItem.id (queue s)) -> fifo s -> fifo (dispatchEffect s).
Proof.
  intros ND X. unfold dispatchEffect.
  destruct (negb (speechRef s) || negb (supportsSpeech s)) eqn:G; [exact X|].
  destruct (find _ (queue s)); [exact X|].
  destruct (isPaused s); [exact X|].
  destruct (find (fun item => status_eqb (QueueItem.status item) pending) (queue s))
    as [next|] eqn:F; [|exact X].
  unfold fifo. rewrite speak_queue, speak_dispatched.
  - apply fifoOn_dispatch; assumption.
  - unfold engineReady. apply orb_false_elim in G. destruct G as [G1 G2].
    apply negb_false_iff in G1, G2. rewrite G1, G2. reflexivity.
Qed.

Lemma reachable_fifo (s : State) : reachable s -> fifo s.
Proof.
  induction 1 as [supported | s e R IH En].
  - split; [intros x [] | intros [|] ? ? ? E; discriminate].
  - unfold step. pose proof (handle_fifo s e IH En) as H.
    case_if; [|exact H].
    apply dispatchEffect_fifo; [|exact H].
    apply (handle_exclusive s e (reachable_exclusive s R) En).
Qed.

Lemma speakingCount_zero_find (q : list QueueItem.t) :
  speakingCount q = 0 ->
  find (fun item => status_eqb (QueueItem.status item) speaking) q = None.
Proof.
  unfold speakingCount, isSpeaking. induction q as [|a q IH]; simpl; [reflexivity|].
  destruct (status_eqb (QueueItem.status a) speaking); simpl; [discriminate | exact IH].
Qed.

(** An event that changes the request list or the paused flag is followed by
    the dispatch effect. *)
Lemma mutation_runs_effect (s : State) (e : Event) :
  queue (handle s e) <> queue s \/ isPaused (handle s e) <> isPaused s ->
  step s e = dispatchEffect (handle s e).
Proof.
  intros M. unfold step.
  destruct (touchesDeps s e) eqn:T; [reflexivity|].
  destruct (Bool.eqb (isPaused s) (isPaused (handle s e))) eqn:P; [|reflexivity].
  exfalso. apply Bool.eqb_prop in P. destruct M as [M|M]; [|congruence].
  apply M. clear M P. destruct e; simpl in *; try reflexivity; try discriminate.
  - unfold handleAddToQueue. rewrite T. reflexivity.
  - unfold handleStop. rewrite T. reflexivity.
  - unfold handlePauseResume. case_if; [reflexivity|]. case_if; [reflexivity|].
    case_if; reflexivity.
  - apply Nat.ltb_ge in T. apply nth_error_None in T. rewrite T. reflexivity.
  - apply Nat.ltb_ge in T. apply nth_error_None in T. rewrite T. reflexivity.
  - apply Nat.ltb_ge in T. apply nth_error_None in T. rewrite T. reflexivity.
Qed.

(** The dispatch rule: nobody speaking, not paused, [x] the earliest pending
    request. *)
Lemma dispatch_rule (t : State) (l1 l2 : list QueueItem.t) (x : QueueItem.t) :
  engineReady t = true ->
  speakingCount (queue t) = 0 ->
  isPaused t = false ->
  queue t = l1 ++ x :: l2 ->
  Forall (fun y => QueueItem.status y <> pending) l1 ->
  QueueItem.status x = pending ->
  dispatchEffect t = speak x t.
Proof.
  intros R Z P Q Before Px. unfold dispatchEffect.
  unfold engineReady in R. apply andb_prop in R. destruct R as [R1 R2].
  rewrite R1, R2, (speakingCount_zero_find _ Z), P, Q. simpl.
  rewrite find_first; [reflexivity | | rewrite Px; reflexivity].
  intros y Iy. rewrite Forall_forall in Before. specialize (Before y Iy).
  destruct (QueueItem.status y); simpl; congruence.
Qed.

(** Whatever the dispatch effect submits is the earliest pending request,
    and it submits it with nobody speaking and the paused flag off. *)
Lemma dispatchEffect_cases (t : State) :
  dispatchEffect t = t
  \/ exists l1 x l2,
       engineReady t = true
       /\ queue t = l1 ++ x :: l2
       /\ Forall (fun y => QueueItem.status y <> pending) l1
       /\ QueueItem.status x = pending
       /\ speakingCount (queue t) = 0
       /\ isPaused t = false
       /\ dispatchEffect t = speak x t.
Proof.
  unfold dispatchEffect.
  destruct (negb (speechRef t) || negb (supportsSpeech t)) eqn:G; [now left|].
  destruct (find _ (queue t)) eqn:S; [now left|].
  destruct (isPaused t) eqn:P; [now left|].
  destruct (find (fun item => status_eqb (QueueItem.status item) pending) (queue t))
    as [next|] eqn:F; [|now left].
  right. destruct (find_split _ _ _ _ F) as (l1 & l2 & Q & Px & Before).
  exists l1, next, l2. apply status_eqb_eq in Px.
  apply orb_false_elim in G. destruct G as [G1 G2]. apply negb_false_iff in G1, G2.
  unfold engineReady. rewrite G1, G2.
  repeat split; auto using find_speaking_none.
  apply Forall_forall. intros y Iy E. specialize (Before y Iy). cbv beta in Before.
  rewrite E in Before. discriminate.
Qed.

(** C7. Dispatch is first in, first out.  After an event that changes the
    request list or the paused flag, with the engine at hand, nobody
    speaking and the paused flag off, the engine is asked to cancel and to
    speak the utterance of the earliest pending request, and nothing else.
    Whenever an event dispatches at all, it dispatches the earliest pending
    request, with nobody speaking and the paused flag off.  Along every run,
    when a dispatched request [y] stands behind a request [x] in the queue,
    [x] was dispatched at a time when [y] had not been: requests are first
    dispatched in queue order, which is the order they were enqueued in. *)
Theorem dispatch_is_fifo :
  (forall s e l1 x l2,
     let t := handle s e in
     engineReady t = true ->
     queue t <> queue s \/ isPaused t <> isPaused s ->
     speakingCount (queue t) = 0 ->
     isPaused t = false ->
     queue t = l1 ++ x :: l2 ->
     Forall (fun y => QueueItem.status y <> pending) l1 ->
     QueueItem.status x = pending ->
     engineCalls (step s e) = engineCalls t ++ [Cancel; Speak (utteranceFor t x)]
     /\ dispatched (step s e) = dispatched s ++ [QueueItem.id x])
  /\ (forall s e,
        dispatched (step s e) = dispatched s
        \/ exists l1 x l2,
             queue (step s e) = l1 ++ x :: l2
             /\ Forall (fun y => QueueItem.status y <> pending) l1
             /\ QueueItem.status x = pending
             /\ speakingCount (queue (step s e)) = 0
             /\ isPaused (step s e) = false
             /\ dispatched (step s e) = dispatched s ++ [QueueItem.id x])
  /\ (forall s l1 x l2 y,
        reachable s ->
        queue s = l1 ++ x :: l2 ->
        In y l2 ->
        In (QueueItem.id y) (dispatched s) ->
        exists d1 d2,
          dispatched s = d1 ++ QueueItem.id x :: d2 /\ ~ In (QueueItem.id y) d1).
Proof.
  split; [|split].
  - intros s e l1 x l2 t R M Z P Q Before Px.
    rewrite (mutation_runs_effect s e M). fold t.
    rewrite (dispatch_rule t l1 l2 x R Z P Q Before Px).
    rewrite (speak_calls t x R), (speak_dispatched t x R).
    split; [reflexivity|]. f_equal. apply handle_dispatched.
  - intros s e. rewrite step_queue, step_isPaused. unfold step.
    case_if; [|left; apply handle_dispatched].
    destruct (dispatchEffect_cases (handle s e))
      as [->|(l1 & x & l2 & R & Q & Before & Px & Z & P & ->)];
      [left; apply handle_dispatched|].
    right. exists l1, x, l2. rewrite (speak_dispatched _ x R), handle_dispatched. auto 10.
  - intros s l1 x l2 y R Q Iy D. destruct (reachable_fifo s R) as [_ I4].
    apply (I4 (map QueueItem.id l1) (QueueItem.id x) (map QueueItem.id l2)).
    + rewrite Q, map_app. reflexivity.
    + apply in_map. exact Iy.
    + exact D.
Qed.

Lemma dispatch_is_fifo_witness :
  let s := run (init true)
             [SetText (js "hi"); AddToQueue "a"; OnStart 0; AddToQueue "b"; AddToQueue "c"] in
  let es := [OnEnd 0 false; OnStart 1; OnEnd 1 false; OnStart 2; OnEnd 2 false] in
  let t := handle s (OnEnd 0 false) in
  reachable (run s es)
  /\ statuses s = [speaking; pending; pending]
  /\ dispatched s = ["a"]
  /\ queue t = [request "a" completed] ++ request "b" pending :: [request "c" pending]
  /\ dispatched (step s (OnEnd 0 false)) = dispatched s ++ ["b"]
  /\ dispatched (run s es) = ["a"; "b"; "c"]
  /\ queue (run s es)
     = [request "a" completed] ++ request "b" completed :: [request "c" completed]
  /\ exists d1 d2, dispatched (run s es) = d1 ++ "b" :: d2 /\ ~ In "c" d1.
Proof.
  intros s es t.
  assert (R : reachable (run s es)).
  { unfold s. apply valid_reachable; [|vm_compute; reflexivity].
    apply valid_reachable; [apply reach_init | vm_compute; reflexivity]. }
  assert (Q : queue t = [request "a" completed] ++ request "b" pending :: [request "c" pending])
    by (vm_compute; reflexivity).
  assert (Q' : queue (run s es)
               = [request "a" completed] ++ request "b" completed :: [request "c" completed])
    by (vm_compute; reflexivity).
  split; [exact R|]. split; [vm_compute; reflexivity|]. split; [vm_compute; reflexivity|].
  split; [exact Q|].
  split.
  - refine (proj2 (proj1 dispatch_is_fifo s (OnEnd 0 false) _ (request "b" pending) _
                     _ _ _ _ Q _ _)).
    + vm_compute; reflexivity.
    + left. vm_compute. discriminate.
    + vm_compute; reflexivity.
    + vm_compute; reflexivity.
    + repeat constructor; discriminate.
    + reflexivity.
  - split; [vm_compute; reflexivity|]. split; [exact Q'|].
    refine (proj2 (proj2 dispatch_is_fifo) (run s es) _ (request "b" completed) _
              (request "c" completed) R Q' _ _).
    + left. reflexivity.
    + vm_compute. auto.
Defined.

(** * Further properties of the component *)

(** ** What an event can do to the queue *)

(** A handler leaves the queue alone, maps it with a function that keeps
    the payloads, filters the finished requests out, or appends the request
    made from the form. *)
Lemma handle_queue_cases (s : State) (e : Event) :
  queue (handle s e) = queue s
  \/ (exists g, (forall x, payload (g x) = payload x)
               /\ queue (handle s e) = map g (queue s))
  \/ (e = ClearCompleted
      /\ queue (handle s e)
         = filter (fun item => negb (terminal (QueueItem.status item))) (queue s))
  \/ (exists rnd, e = AddToQueue rnd /\ trim (text s) <> []
        /\ queue (handle s e)
           = queue s ++ [QueueItem.mk rnd (trim (text s))
                           (match selectedVoiceInfo s with
                            | Some v => VoiceOption.id v | None => "" end)
                           (rate s) (pitch s) (volume s) pending None]).
Proof.
  destruct e; unfold handle; try (left; reflexivity).
  - unfold handleAddToQueue. destruct (trim (text s)) eqn:T; [left; reflexivity|].
    right. right. right. exists rnd. repeat split. discriminate.
  - unfold handleStop. destruct (negb (speechRef s)); [left; reflexivity|].
    right. left. eexists. split; [|reflexivity].
    intros x. cbv beta. destruct (status_eqb (QueueItem.status x) speaking); reflexivity.
  - unfold handlePauseResume. destruct (negb (speechRef s)); [left; reflexivity|].
    destruct (engineSpeaking && negb enginePaused); [left; reflexivity|].
    destruct enginePaused; left; reflexivity.
  - right. right. left. split; [reflexivity|].
    apply filter_ext. intros a. apply keep_not_terminal.
  - destruct (nth_error (utterances s) u); [|left; reflexivity].
    right. left.
    exists (fun entry =>
      if String.eqb (QueueItem.id entry) (QueueItem.id (Utterance.item t))
      then QueueItem.with_status entry speaking else entry).
    split; [|destruct (S u =? length (utterances s)); reflexivity].
    intros x. cbv beta. destruct (String.eqb _ _); reflexivity.
  - destruct (nth_error (utterances s) u); [|left; reflexivity].
    right. left. eexists. split; [|reflexivity].
    intros x. cbv beta. destruct (String.eqb _ _); reflexivity.
  - destruct (nth_error (utterances s) u); [|left; reflexivity].
    right. left. eexists. split; [|reflexivity].
    intros x. cbv beta. destruct (String.eqb _ _); reflexivity.
Qed.

(** A handler never submits an utterance itself: only the effect does. *)
Lemma handle_utterances (s : State) (e : Event) : utterances (handle s e) = utterances s.
Proof.
  unfold utterances.
  destruct e; unfold handle; try reflexivity.
  - unfold handleAddToQueue. case_if; reflexivity.
  - unfold handleStop. case_if; [reflexivity|]. cbn -[spoken].
    rewrite spoken_app. apply app_nil_r.
  - unfold handlePauseResume. case_if; [reflexivity|].
    case_if; [cbn -[spoken]; rewrite spoken_app; apply app_nil_r|].
    case_if; [cbn -[spoken]; rewrite spoken_app; apply app_nil_r | reflexivity].
  - destruct (nth_error (utterances s) u); [|reflexivity]. case_if; reflexivity.
  - destruct (nth_error (utterances s) u); reflexivity.
  - destruct (nth_error (utterances s) u); reflexivity.
Qed.

(** A property of the payloads of the queued requests that holds for a
    request made from the current form is kept by every event. *)
Lemma step_keeps_payload_property (P : QueueItem.t -> Prop) (s : State) (e : Event) :
  (forall x y, payload x = payload y -> P x -> P y) ->
  (forall rnd voiceId st err,
     trim (text s) <> [] ->
     P (QueueItem.mk rnd (trim (text s)) voiceId (rate s) (pitch s) (volume s) st err)) ->
  Forall P (queue s) -> Forall P (queue (step s e)).
Proof.
  intros Ext New F. rewrite step_queue.
  destruct (handle_queue_cases s e) as [->|[(g & G & ->)|[(_ & ->)|(rnd & _ & T & ->)]]].
  - exact F.
  - rewrite Forall_forall in *. intros y Iy. apply in_map_iff in Iy.
    destruct Iy as (x & <- & Ix). apply (Ext x); [symmetry; apply G | exact (F x Ix)].
  - rewrite Forall_forall in *. intros y Iy. apply filter_In in Iy. apply F. tauto.
  - apply Forall_app. split; [exact F|]. constructor; [|constructor]. apply New. exact T.
Qed.

(** ** Trimmed texts *)

Lemma trimStart_split (t : jsstring) :
  exists p, t = p ++ trimStart t
            /\ forall c, hd_error (trimStart t) = Some c -> isWhiteSpace c = false.
Proof.
  induction t as [|a t (p & E & H)]; simpl.
  - exists []. split; [reflexivity | discriminate].
  - destruct (isWhiteSpace a) eqn:W.
    + exists (a :: p). simpl. split; [f_equal; exact E | exact H].
    + exists []. split; [reflexivity|]. simpl. intros c C. injection C as <-. exact W.
Qed.

Lemma hd_error_app (X : Type) (l1 l2 : list X) :
  l1 <> [] -> hd_error (l1 ++ l2) = hd_error l1.
Proof. destruct l1; [congruence | reflexivity]. Qed.

Lemma trim_trimmed (t : jsstring) : trim t <> [] -> trimmedText (trim t).
Proof.
  unfold trim, trimEnd. intros N.
  destruct (trimStart_split t) as (_ & _ & Hy).
  destruct (trimStart_split (rev (trimStart t))) as (p & E & Hz).
  set (y := trimStart t) in *. set (z := trimStart (rev y)) in *.
  split; [exact N|]. split.
  - assert (Y : y = rev z ++ rev p).
    { rewrite <- rev_app_distr, <- E, rev_involutive. reflexivity. }
    intros c C. apply Hy. rewrite Y, hd_error_app; [exact C | exact N].
  - rewrite rev_involutive. exact Hz.
Qed.

(** Every request of the queue, in every run from the mounted component,
    carries a text that is not empty and has no white space at either end;
    so does every utterance handed to the engine. *)
Theorem queue_texts_are_trimmed (supported : bool) (es : list Event) :
  Forall (fun item => trimmedText (QueueItem.text item)) (queue (run (init supported) es))
  /\ Forall (fun u => trimmedText (Utterance.text u)) (utterances (run (init supported) es)).
Proof.
  assert (G : forall es s,
    Forall (fun item => trimmedText (QueueItem.text item)) (queue s) ->
    Forall (fun u => trimmedText (Utterance.text u)) (utterances s) ->
    Forall (fun item => trimmedText (QueueItem.text item)) (queue (run s es))
    /\ Forall (fun u => trimmedText (Utterance.text u)) (utterances (run s es))).
  { clear es. induction es as [|e es IH]; intros s Q U; simpl; [auto|].
    assert (Q' : Forall (fun item => trimmedText (QueueItem.text item)) (queue (step s e))).
    { apply step_keeps_payload_property; [| |exact Q].
      - intros x y E. unfold payload in E. injection E as _ E _ _ _ _. rewrite E. auto.
      - intros rnd voiceId st err T. simpl. apply trim_trimmed. exact T. }
    apply IH; [exact Q'|].
    pose proof (handle_utterances s e) as H.
    unfold step. case_if; [|rewrite H; exact U].
    destruct (dispatchEffect_cases (handle s e))
      as [->|(l1 & x & l2 & R & Qx & _ & _ & _ & _ & ->)]; [rewrite H; exact U|].
    unfold utterances. rewrite (speak_calls _ x R), spoken_app. fold (utterances (handle s e)).
    rewrite H. apply Forall_app. split; [exact U|]. constructor; [|constructor].
    simpl. rewrite step_queue, Qx in Q'. apply Forall_app in Q'. destruct Q' as [_ Q'].
    inversion Q'; assumption. }
  apply G; constructor.
Qed.

(** No event edits a queued request beyond its status and error reason: the
    list of payloads (id, text, voice id, rate, pitch, volume) stays as it
    is, or gains the one request [AddToQueue] makes from the form, or,
    under [ClearCompleted], loses the finished requests. *)
Theorem events_keep_payload (s : State) (e : Event) :
  map payload (queue (step s e)) = map payload (queue s)
  \/ (exists rnd voiceId,
        e = AddToQueue rnd
        /\ map payload (queue (step s e))
           = map payload (queue s)
             ++ [(rnd, trim (text s), voiceId, rate s, pitch s, volume s)])
  \/ (e = ClearCompleted
      /\ map payload (queue (step s e))
         = map payload (filter (fun item => negb (terminal (QueueItem.status item)))
                          (queue s))).
Proof.
  rewrite step_queue.
  destruct (handle_queue_cases s e) as [->|[(g & G & ->)|[(E & ->)|(rnd & E & _ & ->)]]].
  - left. reflexivity.
  - left. rewrite map_map. apply map_ext. exact G.
  - right. right. split; [exact E | reflexivity].
  - right. left. exists rnd. eexists. split; [exact E|]. rewrite map_app. reflexivity.
Qed.

(** ** Prosody ranges *)

Lemma step_formInRange (s : State) (e : Event) :
  sliderAllows e = true -> formInRange s -> formInRange (step s e).
Proof.
  intros A F. pose proof (step_form s e) as E. unfold form in E.
  injection E as _ _ _ Er Ep Ev _ _. unfold formInRange. rewrite Er, Ep, Ev. clear Er Ep Ev.
  destruct F as (Fr & Fp & Fv).
  destruct e; unfold handle; simpl in A; try (repeat split; tauto).
  - apply andb_prop in A. destruct A as [A1 A2]. apply Qle_bool_iff in A1, A2.
    simpl. tauto.
  - apply andb_prop in A. destruct A as [A1 A2]. apply Qle_bool_iff in A1, A2.
    simpl. tauto.
  - apply andb_prop in A. destruct A as [A1 A2]. apply Qle_bool_iff in A1, A2.
    simpl. tauto.
  - unfold handleAddToQueue. case_if; simpl; tauto.
  - unfold handleStop. case_if; simpl; tauto.
  - unfold handlePauseResume. case_if; [tauto|]. case_if; [simpl; tauto|].
    case_if; simpl; tauto.
  - destruct (nth_error (utterances s) u); [|tauto]. case_if; simpl; tauto.
  - destruct (nth_error (utterances s) u); simpl; tauto.
  - destruct (nth_error (utterances s) u); simpl; tauto.
Qed.

(** As long as the sliders deliver values between their [min] and [max],
    every request of the queue has its rate in [0.5, 2], its pitch in
    [0, 2] and its volume in [0, 1]. *)
Theorem queue_prosody_in_slider_range (supported : bool) (es : list Event) :
  forallb sliderAllows es = true ->
  Forall inRange (queue (run (init supported) es)).
Proof.
  assert (G : forall es s, forallb sliderAllows es = true ->
                formInRange s -> Forall inRange (queue s) ->
                Forall inRange (queue (run s es))).
  { clear es. induction es as [|e es IH]; intros s A F Q; simpl in *; [exact Q|].
    apply andb_prop in A. destruct A as [Ae A].
    apply IH; [exact A | apply step_formInRange; assumption|].
    apply step_keeps_payload_property; [| |exact Q].
    - intros x y E. unfold payload in E. injection E as _ _ _ Er Ep Ev.
      unfold inRange. rewrite <- Er, <- Ep, <- Ev. auto.
    - intros rnd voiceId st err _. exact F. }
  intros A. apply G; [exact A | | constructor].
  unfold formInRange, init. simpl. unfold Qle. simpl. lia.
Qed.

Lemma queue_prosody_in_slider_range_witness :
  let es := [SetText (js "hi"); SetRate (3 # 2); SetVolume (1 # 4); AddToQueue "a"] in
  forallb sliderAllows es = true
  /\ map QueueItem.rate (queue (run (init true) es)) = [(3 # 2)%Q]
  /\ Forall inRange (queue (run (init true) es)).
Proof.
  intros es.
  assert (A : forallb sliderAllows es = true) by (vm_compute; reflexivity).
  split; [exact A|]. split; [vm_compute; reflexivity|].
  exact (queue_prosody_in_slider_range true es A).
Defined.






(** ** The engine reference never changes *)

Lemma handle_refs (s : State) (e : Event) :
  speechRef (handle s e) = speechRef s /\ supportsSpeech (handle s e) = supportsSpeech s.
Proof.
  destruct e; unfold handle; try (split; reflexivity).
  - unfold handleAddToQueue. case_if; split; reflexivity.
  - unfold handleStop. case_if; split; reflexivity.
  - unfold handlePauseResume. case_if; [split; reflexivity|].
    case_if; [split; reflexivity|]. case_if; split; reflexivity.
  - destruct (nth_error (utterances s) u); [|split; reflexivity]. case_if; split; reflexivity.
  - destruct (nth_error (utterances s) u); split; reflexivity.
  - destruct (nth_error (utterances s) u); split; reflexivity.
Qed.

Lemma step_refs (s : State) (e : Event) :
  speechRef (step s e) = speechRef s /\ supportsSpeech (step s e) = supportsSpeech s.
Proof.
  pose proof (step_form s e) as F. unfold form in F. injection F as _ _ _ _ _ _ F1 F2.
  rewrite F1, F2. apply handle_refs.
Qed.

(** ** Without a speech engine *)

Lemma step_inert (s : State) (e : Event) : inert s -> inert (step s e).
Proof.
  intros (R & C & Q & P).
  assert (D : forall t, speechRef t = false -> dispatchEffect t = t).
  { intros t Rt. unfold dispatchEffect. rewrite Rt. reflexivity. }
  assert (H : inert (handle s e)).
  { unfold inert. destruct e; unfold handle; try (repeat split; assumption).
    - unfold handleAddToQueue. case_if; [repeat split; assumption|].
      repeat split; try assumption. simpl. apply Forall_app. split; [exact Q|].
      repeat constructor.
    - unfold handleStop. rewrite R. repeat split; assumption.
    - unfold handlePauseResume. rewrite R. repeat split; assumption.
    - repeat split; try assumption. simpl. rewrite Forall_forall in *.
      intros x Ix. apply filter_In in Ix. apply Q. tauto.
    - unfold utterances. rewrite C. destruct u; repeat split; assumption.
    - unfold utterances. rewrite C. destruct u; repeat split; assumption.
    - unfold utterances. rewrite C. destruct u; repeat split; assumption. }
  unfold step. case_if; [|exact H]. rewrite D; [exact H | apply H].
Qed.

(** When the browser has no speech synthesis, nothing the user or anything
    else does makes the component call the engine: the call log stays
    empty, every request stays pending, the paused flag stays off and the
    status line reads Idle. *)
Theorem unsupported_engine_never_called (es : list Event) :
  let s := run (init false) es in
  engineCalls s = []
  /\ Forall (fun item => QueueItem.status item = pending) (queue s)
  /\ isPaused s = false
  /\ speakingStatus s = "Idle".
Proof.
  assert (G : forall es s, inert s -> inert (run s es)).
  { clear es. induction es as [|e es IH]; intros s I; simpl; [exact I|].
    apply IH, step_inert, I. }
  destruct (G es (init false)) as (_ & C & Q & P).
  { repeat split. constructor. }
  cbv zeta. split; [exact C|]. split; [exact Q|]. split; [exact P|].
  unfold speakingStatus.
  induction (queue (run (init false) es)) as [|a q IH]; simpl; [reflexivity|].
  inversion Q as [|? ? Pa Q']; subst. rewrite Pa. simpl. apply IH. exact Q'.
Qed.

(** ** Cancel before speak *)

Lemma cancelBeforeSpeak_app (b : list EngineCall) :
  cancelBeforeSpeak b = true ->
  forall n l, length l <= n -> cancelBeforeSpeak l = true ->
              cancelBeforeSpeak (l ++ b) = true.
Proof.
  intros Hb. induction n as [|n IH]; intros l L H.
  - destruct l; [exact Hb | simpl in L; lia].
  - destruct l as [|c l]; [exact Hb|]. simpl in L.
    destruct c; [|discriminate H| |].
    + destruct l as [|c' l'].
      * simpl. destruct b as [|[] b']; simpl in Hb |- *; congruence.
      * simpl in L. destruct c'.
        -- change (cancelBeforeSpeak ((Cancel :: l') ++ b) = true).
           apply IH; [simpl; lia | exact H].
        -- change (cancelBeforeSpeak (l' ++ b) = true).
           apply IH; [lia | exact H].
        -- change (cancelBeforeSpeak ((Pause :: l') ++ b) = true).
           apply IH; [simpl; lia | exact H].
        -- change (cancelBeforeSpeak ((Resume :: l') ++ b) = true).
           apply IH; [simpl; lia | exact H].
    + change (cancelBeforeSpeak (l ++ b) = true). apply IH; [lia | exact H].
    + change (cancelBeforeSpeak (l ++ b) = true). apply IH; [lia | exact H].
Qed.

Lemma handle_calls (s : State) (e : Event) :
  exists b, engineCalls (handle s e) = engineCalls s ++ b /\ cancelBeforeSpeak b = true.
Proof.
  assert (Z : exists b, engineCalls s = engineCalls s ++ b /\ cancelBeforeSpeak b = true).
  { exists []. rewrite app_nil_r. auto. }
  destruct e; unfold handle; try exact Z.
  - unfold handleAddToQueue. case_if; exact Z.
  - unfold handleStop. case_if; [exact Z|]. exists [Cancel]. auto.
  - unfold handlePauseResume. case_if; [exact Z|].
    case_if; [exists [Pause]; auto|]. case_if; [exists [Resume]; auto | exact Z].
  - destruct (nth_error (utterances s) u); [|exact Z]. case_if; exact Z.
  - destruct (nth_error (utterances s) u); exact Z.
  - destruct (nth_error (utterances s) u); exact Z.
Qed.

Lemma cancelBeforeSpeak_nth (n : nat) :
  forall l, length l <= n -> cancelBeforeSpeak l = true ->
  forall i u, nth_error l i = Some (Speak u) ->
  exists j, i = S j /\ nth_error l j = Some Cancel.
Proof.
  induction n as [|n IH]; intros l L H i u N.
  - destruct l; [destruct i; discriminate | simpl in L; lia].
  - destruct l as [|c l]; [destruct i; discriminate|]. simpl in L.
    assert (Tail : cancelBeforeSpeak l = true ->
              exists j, i = S j /\ nth_error (c :: l) j = Some Cancel
                        \/ (i = 0 /\ j = 0)).
    { intros Hl. destruct i as [|k]; [exists 0; right; auto|]. simpl in N.
      destruct (IH l ltac:(lia) Hl k u N) as (j & -> & Nj).
      exists (S j). left. split; [reflexivity | exact Nj]. }
    destruct c; [|discriminate H| |].
    + destruct l as [|c' l'].
      * destruct i as [|[|k]]; discriminate.
      * simpl in L. destruct c'; try
          (destruct (Tail H) as (j & [[-> Nj]|[-> _]]);
             [exists j; split; [reflexivity | exact Nj] | discriminate N]).
        change (cancelBeforeSpeak l' = true) in H.
        destruct i as [|[|k]]; [discriminate | exists 0; auto|].
        simpl in N. destruct (IH l' ltac:(lia) H k u N) as (j & -> & Nj).
        exists (S (S j)). split; [reflexivity | exact Nj].
    + destruct (Tail H) as (j & [[-> Nj]|[-> _]]);
        [exists j; split; [reflexivity | exact Nj] | discriminate N].
    + destruct (Tail H) as (j & [[-> Nj]|[-> _]]);
        [exists j; split; [reflexivity | exact Nj] | discriminate N].
Qed.

(** In every run, each [speak] call the component makes on the engine comes
    immediately after a [cancel] call: an utterance is never queued behind
    another one in the engine. *)
Theorem speak_always_after_cancel (supported : bool) (es : list Event) (i : nat)
    (utterance : Utterance.t) :
  nth_error (engineCalls (run (init supported) es)) i = Some (Speak utterance) ->
  exists j, i = S j /\ nth_error (engineCalls (run (init supported) es)) j = Some Cancel.
Proof.
  assert (G : forall es s, cancelBeforeSpeak (engineCalls s) = true ->
                cancelBeforeSpeak (engineCalls (run s es)) = true).
  { clear es. induction es as [|e es IH]; intros s H; simpl; [exact H|].
    apply IH. destruct (handle_calls s e) as (b & E & Hb).
    assert (H' : cancelBeforeSpeak (engineCalls (handle s e)) = true).
    { rewrite E. apply (cancelBeforeSpeak_app b Hb (length (engineCalls s))); auto. }
    unfold step. case_if; [|exact H'].
    destruct (dispatchEffect_calls (handle s e)) as [->|[utt ->]]; [exact H'|].
    apply (cancelBeforeSpeak_app [Cancel; Speak utt] eq_refl
             (length (engineCalls (handle s e)))); auto. }
  apply (cancelBeforeSpeak_nth (length (engineCalls (run (init supported) es)))); [lia|].
  apply G. reflexivity.
Qed.

Lemma speak_always_after_cancel_witness :
  let es := [SetText (js "hi"); AddToQueue "a"; Stop] in
  let utterance := Utterance.mk (js "hi") None 1 1 1 (request "a" pending) in
  engineCalls (run (init true) es)
  = [Cancel; Speak utterance; Cancel; Cancel; Speak utterance]
  /\ exists j, 4 = S j /\ nth_error (engineCalls (run (init true) es)) j = Some Cancel.
Proof.
  intros es utterance. split; [vm_compute; reflexivity|].
  apply (speak_always_after_cancel true es 4 utterance). vm_compute. reflexivity.
Defined.

(** ** Pending work is always submitted *)

(** An event after which the effect does not run has left the queue and the
    catalog as they were. *)
Lemma quiet_handle (s : State) (e : Event) :
  touchesDeps s e = false ->
  queue (handle s e) = queue s /\ voices (handle s e) = voices s.
Proof.
  intros T. destruct e; simpl in *; try (split; reflexivity); try discriminate.
  - unfold handleAddToQueue. rewrite T. split; reflexivity.
  - unfold handleStop. rewrite T. split; reflexivity.
  - unfold handlePauseResume. case_if; [split; reflexivity|].
    case_if; [split; reflexivity|]. case_if; split; reflexivity.
  - apply Nat.ltb_ge in T. apply nth_error_None in T. rewrite T. split; reflexivity.
  - apply Nat.ltb_ge in T. apply nth_error_None in T. rewrite T. split; reflexivity.
  - apply Nat.ltb_ge in T. apply nth_error_None in T. rewrite T. split; reflexivity.
Qed.

Lemma step_headSubmitted (s : State) (e : Event) :
  headSubmitted s -> headSubmitted (step s e).
Proof.
  intros J. unfold step.
  destruct (touchesDeps s e || negb (Bool.eqb (isPaused s) (isPaused (handle s e)))) eqn:C.
  - (* the effect runs *)
    set (t := handle s e).
    intros R Z P l1 x l2 Q Before Px.
    rewrite dispatchEffect_queue in Z, Q. rewrite dispatchEffect_isPaused in P.
    assert (Rt : engineReady t = true).
    { pose proof (dispatchEffect_form t) as F. unfold form in F.
      injection F as _ _ _ _ _ _ F1 F2. unfold engineReady in *. congruence. }
    rewrite (dispatch_rule t l1 l2 x Rt Z P Q Before Px).
    exists (utterances t). unfold utterances at 1.
    rewrite (speak_calls t x Rt), spoken_app. simpl. f_equal. f_equal.
    unfold utteranceFor. f_equal.
    pose proof (speak_form t x) as F. unfold form in F. injection F as _ F _ _ _ _ _ _.
    rewrite F. reflexivity.
  - (* nothing the effect depends on changed *)
    apply orb_false_elim in C. destruct C as [T P']. apply negb_false_iff, Bool.eqb_prop in P'.
    destruct (quiet_handle s e T) as [Q' V']. destruct (handle_refs s e) as [R1 R2].
    intros R Z P l1 x l2 Q Before Px.
    unfold engineReady in R. rewrite R1, R2 in R. rewrite Q' in Z, Q. rewrite <- P' in P.
    destruct (J R Z P l1 x l2 Q Before Px) as (us & U).
    exists us. rewrite handle_utterances, U. unfold utteranceFor. rewrite V'. reflexivity.
Qed.

(** The scheduler does not sit on pending work.  In every run, when the
    engine is available, nobody is speaking and the paused flag is off, the
    utterance submitted last to the engine is the one of the earliest
    pending request, built against the current catalog. *)
Theorem pending_head_is_submitted (supported : bool) (es : list Event)
    (l1 l2 : list QueueItem.t) (x : QueueItem.t) :
  let s := run (init supported) es in
  engineReady s = true ->
  speakingCount (queue s) = 0 ->
  isPaused s = false ->
  queue s = l1 ++ x :: l2 ->
  Forall (fun y => QueueItem.status y <> pending) l1 ->
  QueueItem.status x = pending ->
  exists us, utterances s = us ++ [utteranceFor s x].
Proof.
  assert (G : forall es s, headSubmitted s -> headSubmitted (run s es)).
  { clear es. induction es as [|e es IH]; intros s J; simpl; [exact J|].
    apply IH, step_headSubmitted, J. }
  intros s R Z P Q Before Px.
  refine (G es (init supported) _ R Z P l1 x l2 Q Before Px).
  intros _ _ _ [|a k1] y k2 Q0; discriminate Q0.
Qed.

Lemma pending_head_is_submitted_witness :
  let es := [SetText (js "hi"); AddToQueue "a"; OnStart 0; AddToQueue "b";
             OnError 0 (Some "synthesis-failed")] in
  let s := run (init true) es in
  statuses s = [error; pending]
  /\ exists us, utterances s = us ++ [utteranceFor s (request "b" pending)].
Proof.
  intros es s. split; [vm_compute; reflexivity|].
  apply (pending_head_is_submitted true es
           [QueueItem.mk "a" (js "hi") "" 1 1 1 error (Some "synthesis-failed")]
           [] (request "b" pending)).
  - vm_compute; reflexivity.
  - vm_compute; reflexivity.
  - vm_compute; reflexivity.
  - vm_compute; reflexivity.
  - repeat constructor. discriminate.
  - reflexivity.
Defined.

(** ** Status line and buttons *)

Lemma existsb_find_speaking (q : list QueueItem.t) :
  existsb (fun item => status_eqb (QueueItem.status item) speaking) q = false
  <-> find (fun item => status_eqb (QueueItem.status item) speaking) q = None.
Proof.
  induction q as [|a q IH]; simpl; [tauto|].
  destruct (status_eqb (QueueItem.status a) speaking); simpl; [split; discriminate | exact IH].
Qed.

Lemma pause_button_matches_status_aux (s : State) :
  speakingStatus s = "Idle" <-> pauseDisabled s = true.
Proof.
  unfold pauseDisabled, speakingStatus.
  pose proof (existsb_find_speaking (queue s)) as X.
  destruct (find _ (queue s)) as [a|] eqn:F.
  - destruct (existsb _ (queue s)); [|destruct X as [X _]; specialize (X eq_refl); discriminate].
    destruct (isPaused s); split; discriminate.
  - rewrite (proj2 X eq_refl). split; reflexivity.
Qed.

Lemma paused_status (s : State) :
  speakingStatus s = "Paused" <-> 0 < speakingCount (queue s) /\ isPaused s = true.
Proof.
  unfold speakingStatus.
  pose proof (speakingCount_zero_find (queue s)) as Z.
  pose proof (find_speaking_none (queue s)) as Z'.
  destruct (find _ (queue s)) as [a|] eqn:F.
  - assert (C : 0 < speakingCount (queue s)).
    { destruct (speakingCount (queue s)); [specialize (Z eq_refl); discriminate | lia]. }
    destruct (isPaused s); split; intros H; try discriminate; auto.
    destruct H; discriminate.
  - rewrite (Z' eq_refl). split; intros H; [discriminate | destruct H; lia].
Qed.

(** The Pause button is disabled exactly when the status line reads Idle;
    the line reads Paused exactly when a request is speaking and the paused
    flag is on, and Speaking exactly when one is speaking and the flag is
    off. *)
Theorem pause_button_matches_status (s : State) :
  (pauseDisabled s = true <-> speakingStatus s = "Idle")
  /\ (speakingStatus s = "Paused" <-> 0 < speakingCount (queue s) /\ isPaused s = true)
  /\ (speakingStatus s = "Speaking" <-> 0 < speakingCount (queue s) /\ isPaused s = false).
Proof.
  unfold pauseDisabled, speakingStatus.
  pose proof (existsb_find_speaking (queue s)) as X.
  pose proof (speakingCount_zero_find (queue s)) as Z.
  pose proof (find_speaking_none (queue s)) as Z'.
  destruct (find _ (queue s)) as [a|] eqn:F.
  - assert (C : 0 < speakingCount (queue s)).
    { destruct (speakingCount (queue s)); [specialize (Z eq_refl); discriminate | lia]. }
    destruct (existsb _ (queue s)); [|destruct X as [X _]; specialize (X eq_refl); discriminate].
    destruct (isPaused s); simpl; repeat split; intros; try discriminate; try tauto;
      destruct H; discriminate.
  - rewrite (proj2 X eq_refl). rewrite (Z' eq_refl). simpl.
    repeat split; intros; try discriminate; try reflexivity; destruct H; lia.
Qed.

(** ** Stop and clear *)

Lemma stop_leaves_nobody_speaking (q : list QueueItem.t) :
  speakingCount (map (fun entry =>
    if status_eqb (QueueItem.status entry) speaking
    then QueueItem.with_status entry cancelled else entry) q) = 0.
Proof.
  unfold speakingCount, isSpeaking. induction q as [|a q IH]; simpl; [reflexivity|].
  destruct (status_eqb (QueueItem.status a) speaking) eqn:E; simpl; [exact IH|].
  rewrite E. exact IH.
Qed.

(** With the engine at hand, a click on Stop calls the engine's cancel,
    turns every speaking request into a cancelled one and leaves the other
    statuses alone; afterwards nobody is speaking, the paused flag is off,
    the status line reads Idle and the Pause button is disabled. *)
Theorem stop_silences (s : State) :
  speechRef s = true ->
  let s' := step s Stop in
  statuses s' = map (fun st => match st with speaking => cancelled | _ => st end) (statuses s)
  /\ map payload (queue s') = map payload (queue s)
  /\ speakingCount (queue s') = 0
  /\ isPaused s' = false
  /\ speakingStatus s' = "Idle"
  /\ pauseDisabled s' = true
  /\ nth_error (engineCalls s') (length (engineCalls s)) = Some Cancel.
Proof.
  intros R s'.
  assert (Q : queue s' = map (fun entry =>
                if status_eqb (QueueItem.status entry) speaking
                then QueueItem.with_status entry cancelled else entry) (queue s)).
  { unfold s'. rewrite step_queue. simpl. unfold handleStop. rewrite R. reflexivity. }
  assert (Z : speakingCount (queue s') = 0).
  { rewrite Q. apply stop_leaves_nobody_speaking. }
  assert (I : speakingStatus s' = "Idle").
  { unfold speakingStatus. rewrite (speakingCount_zero_find _ Z). reflexivity. }
  split; [|split; [|split; [exact Z|split; [|split; [exact I|split]]]]].
  - unfold statuses. rewrite Q, !map_map. apply map_ext. intros a.
    destruct (QueueItem.status a) eqn:E; simpl; rewrite ?E; reflexivity.
  - rewrite Q, map_map. apply map_ext. intros a.
    destruct (status_eqb (QueueItem.status a) speaking); reflexivity.
  - unfold s'. rewrite step_isPaused. simpl. unfold handleStop. rewrite R. reflexivity.
  - apply (proj1 (pause_button_matches_status_aux s')). exact I.
  - unfold s', step. simpl. rewrite R. simpl.
    assert (H : nth_error (engineCalls (handleStop s)) (length (engineCalls s)) = Some Cancel).
    { unfold handleStop. rewrite R. simpl.
      rewrite nth_error_app2 by lia. rewrite Nat.sub_diag. reflexivity. }
    destruct (dispatchEffect_calls (handleStop s)) as [E|[u E]]; rewrite E; [exact H|].
    rewrite nth_error_app1; [exact H|]. apply nth_error_Some. congruence.
Qed.

Lemma stop_silences_witness :
  let s := run (init true) [SetText (js "hi"); AddToQueue "a"; OnStart 0; AddToQueue "b"] in
  let s' := step s Stop in
  speechRef s = true
  /\ statuses s = [speaking; pending]
  /\ statuses s' = [cancelled; pending]
  /\ speakingStatus s' = "Idle".
Proof.
  intros s s'.
  assert (R : speechRef s = true) by (vm_compute; reflexivity).
  split; [exact R|]. split; [vm_compute; reflexivity|]. split; [vm_compute; reflexivity|].
  destruct (stop_silences s R) as (_ & _ & _ & _ & I & _). exact I.
Defined.

Lemma filter_idempotent (X : Type) (f : X -> bool) (l : list X) :
  filter f (filter f l) = filter f l.
Proof.
  induction l as [|a l IH]; simpl; [reflexivity|].
  destruct (f a) eqn:E; simpl; [rewrite E, IH; reflexivity | exact IH].
Qed.

Lemma clear_queue (s : State) :
  queue (step s ClearCompleted)
  = filter (fun item => negb (terminal (QueueItem.status item))) (queue s).
Proof. rewrite step_queue. simpl. apply filter_ext. intros a. apply keep_not_terminal. Qed.

(** Clearing twice is clearing once: after [ClearCompleted] every request of
    the queue is pending or speaking, the Clear button is disabled, and a
    second [ClearCompleted] leaves the queue as it is. *)
Theorem clearCompleted_idempotent (s : State) :
  let s' := step s ClearCompleted in
  queue (step s' ClearCompleted) = queue s'
  /\ Forall (fun item => QueueItem.status item = pending
                         \/ QueueItem.status item = speaking) (queue s')
  /\ clearDisabled s' = true.
Proof.
  intros s'. unfold s'. rewrite !clear_queue. split; [apply filter_idempotent|].
  assert (F : Forall (fun item => QueueItem.status item = pending
                                  \/ QueueItem.status item = speaking)
                (filter (fun item => negb (terminal (QueueItem.status item))) (queue s))).
  { apply Forall_forall. intros x Ix. apply filter_In in Ix. destruct Ix as [_ K].
    destruct (QueueItem.status x); simpl in K; try discriminate; auto. }
  split; [exact F|].
  unfold clearDisabled. rewrite clear_queue. apply negb_true_iff.
  induction F as [|x q [P|P] _ IH]; simpl; [reflexivity | |]; rewrite P; exact IH.
Qed.

(** When the Clear button is enabled (some request is completed or in error)
    a click removes at least one request.  When it is disabled the handler
    would still remove the cancelled requests, and only those: the button
    does not look at them. *)
Theorem clear_button_and_handler (s : State) :
  (clearDisabled s = false ->
     length (queue (step s ClearCompleted)) < length (queue s))
  /\ (clearDisabled s = true ->
     queue (step s ClearCompleted)
     = filter (fun item => negb (status_eqb (QueueItem.status item) cancelled)) (queue s)).
Proof.
  rewrite clear_queue. unfold clearDisabled. split; intros D.
  - apply negb_false_iff in D.
    induction (queue s) as [|a q IH]; simpl in *; [discriminate|].
    pose proof (filter_length_le (fun item => negb (terminal (QueueItem.status item))) q) as L.
    destruct (QueueItem.status a); simpl in *; try lia; apply IH in D; lia.
  - apply negb_true_iff in D.
    induction (queue s) as [|a q IH]; simpl in *; [reflexivity|].
    apply orb_false_elim in D. destruct D as [Da D].
    destruct (QueueItem.status a); simpl in *; try discriminate; rewrite (IH D); reflexivity.
Qed.

Lemma clear_button_and_handler_witness :
  let s := set_queue [request "a" cancelled; request "b" pending] (init true) in
  clearDisabled s = true
  /\ queue (step s ClearCompleted)
     = filter (fun item => negb (status_eqb (QueueItem.status item) cancelled)) (queue s)
  /\ queue (step s ClearCompleted) = [request "b" pending].
Proof.
  intros s.
  assert (D : clearDisabled s = true) by (vm_compute; reflexivity).
  split; [exact D|]. split; [|vm_compute; reflexivity].
  exact (proj2 (clear_button_and_handler s) D).
Defined.

(** With the engine at hand, Stop followed by Clear leaves exactly the
    pending requests, in their order and untouched. *)
Theorem stop_then_clear_leaves_pending (s : State) :
  speechRef s = true ->
  queue (run s [Stop; ClearCompleted])
  = filter (fun item => status_eqb (QueueItem.status item) pending) (queue s).
Proof.
  intros R. simpl. rewrite clear_queue, step_queue. simpl. unfold handleStop. rewrite R.
  simpl. induction (queue s) as [|a q IH]; simpl; [reflexivity|].
  destruct (QueueItem.status a) eqn:E; simpl; rewrite ?E; simpl; rewrite IH; reflexivity.
Qed.

Lemma stop_then_clear_leaves_pending_witness :
  let s := set_queue [request "a" completed; request "b" speaking; request "c" pending;
                      request "d" error; request "e" pending] (init true) in
  speechRef s = true
  /\ queue (run s [Stop; ClearCompleted]) = [request "c" pending; request "e" pending].
Proof.
  intros s.
  assert (R : speechRef s = true) by reflexivity.
  split; [exact R|].
  rewrite (stop_then_clear_leaves_pending s R). vm_compute. reflexivity.
Defined.

(** ** The error callback *)

(** When the error callback of an utterance dispatched for request [R]
    fires, every entry with [R]'s id gets the status error and the engine's
    reason, or "Unknown error" when the engine gives none; the other entries
    are untouched and the paused flag is off afterwards. *)
Theorem onerror_records_reason (s : State) (u : nat) (utterance : Utterance.t)
    (reason : option string) :
  nth_error (utterances s) u = Some utterance ->
  let R := Utterance.item utterance in
  let s' := step s (OnError u reason) in
  isPaused s' = false
  /\ length (queue s') = length (queue s)
  /\ forall i entry, nth_error (queue s) i = Some entry ->
       (QueueItem.id entry = QueueItem.id R ->
          exists entry',
            nth_error (queue s') i = Some entry'
            /\ payload entry' = payload entry
            /\ QueueItem.status entry' = error
            /\ QueueItem.error entry'
               = Some (match reason with Some r => r | None => "Unknown error" end))
       /\ (QueueItem.id entry <> QueueItem.id R ->
          nth_error (queue s') i = Some entry).
Proof.
  intros U R s'. unfold s'. rewrite step_isPaused, step_queue. simpl. rewrite U. simpl.
  split; [reflexivity|]. split; [apply length_map|].
  intros i entry H. rewrite nth_error_map, H. simpl. fold R. split; intros E.
  - apply String.eqb_eq in E. rewrite E. eexists. split; [reflexivity|]. auto.
  - apply String.eqb_neq in E. rewrite E. reflexivity.
Qed.

Lemma onerror_records_reason_witness :
  let s := run (init true) [SetText (js "hi"); AddToQueue "a"; OnStart 0] in
  let utterance := Utterance.mk (js "hi") None 1 1 1 (request "a" pending) in
  let s' := step s (OnError 0 None) in
  nth_error (utterances s) 0 = Some utterance
  /\ map QueueItem.error (queue s') = [Some "Unknown error"]
  /\ isPaused s' = false.
Proof.
  intros s utterance s'.
  assert (U : nth_error (utterances s) 0 = Some utterance) by (vm_compute; reflexivity).
  split; [exact U|]. split; [vm_compute; reflexivity|].
  exact (proj1 (onerror_records_reason s 0 utterance None U)).
Defined.

Lemma step_error_reason (s : State) (e : Event) :
  Forall (fun item => QueueItem.status item = error -> QueueItem.error item <> None) (queue s) ->
  Forall (fun item => QueueItem.status item = error -> QueueItem.error item <> None)
    (queue (step s e)).
Proof.
  intros F. rewrite step_queue.
  assert (M : forall g : QueueItem.t -> QueueItem.t,
    (forall x, (QueueItem.status x = error -> QueueItem.error x <> None) ->
               QueueItem.status (g x) = error -> QueueItem.error (g x) <> None) ->
    Forall (fun item => QueueItem.status item = error -> QueueItem.error item <> None)
      (map g (queue s))).
  { intros g G. rewrite Forall_forall in *. intros y Iy. apply in_map_iff in Iy.
    destruct Iy as (x & <- & Ix). apply G, F, Ix. }
  destruct e; unfold handle; try exact F.
  - unfold handleAddToQueue. case_if; [exact F|]. simpl.
    apply Forall_app. split; [exact F|]. repeat constructor. discriminate.
  - unfold handleStop. case_if; [exact F|]. simpl. apply M.
    intros x Px. destruct (status_eqb (QueueItem.status x) speaking); [discriminate | exact Px].
  - unfold handlePauseResume. case_if; [exact F|]. case_if; [exact F|]. case_if; exact F.
  - simpl. rewrite Forall_forall in *. intros x Ix. apply filter_In in Ix. apply F. tauto.
  - destruct (nth_error (utterances s) u); [|exact F].
    assert (H : Forall (fun item => QueueItem.status item = error ->
                                    QueueItem.error item <> None)
                  (queue (onstart (Utterance.item t) s))).
    { simpl. apply M. intros x Px. destruct (String.eqb _ _); [discriminate | exact Px]. }
    case_if; exact H.
  - destruct (nth_error (utterances s) u); [|exact F]. simpl. apply M.
    intros x Px. destruct (String.eqb _ _); [|exact Px].
    simpl. destruct (speechRef s && engineSpeaking); discriminate.
  - destruct (nth_error (utterances s) u); [|exact F]. simpl. apply M.
    intros x Px. destruct (String.eqb _ _); [|exact Px]. simpl. discriminate.
Qed.

(** In every run, a request whose status is error carries an error reason:
    the fallback text the rendering has for a missing reason is never
    shown. *)
Theorem error_status_has_reason (supported : bool) (es : list Event) :
  Forall (fun item => QueueItem.status item = error -> QueueItem.error item <> None)
    (queue (run (init supported) es)).
Proof.
  assert (G : forall es s,
    Forall (fun item => QueueItem.status item = error -> QueueItem.error item <> None)
      (queue s) ->
    Forall (fun item => QueueItem.status item = error -> QueueItem.error item <> None)
      (queue (run s es))).
  { clear es. induction es as [|e es IH]; intros s F; simpl; [exact F|].
    apply IH, step_error_reason, F. }
  apply G. constructor.
Qed.

(** ** Enqueue, the button and the voice *)

(** The "Speak & Queue" button is enabled exactly when a click adds a
    request: enabled, the queue grows by one; disabled, the handler would
    leave the state as it is. *)
Theorem speak_button_matches_handler (s : State) (rnd : string) :
  (speakDisabled s = false <->
     length (queue (step s (AddToQueue rnd))) = S (length (queue s)))
  /\ (speakDisabled s = true <-> step s (AddToQueue rnd) = s).
Proof.
  unfold speakDisabled.
  assert (L : speakDisabled s = true \/ speakDisabled s = false)
    by (destruct (speakDisabled s); auto).
  unfold speakDisabled in L.
  destruct (truthy (trim (text s))) eqn:T; simpl.
  - assert (E : length (queue (step s (AddToQueue rnd))) = S (length (queue s))).
    { rewrite step_queue. simpl. unfold handleAddToQueue. rewrite T. simpl.
      rewrite length_app. simpl. lia. }
    split; split; auto; try discriminate.
    intros H. rewrite H in E. lia.
  - assert (E : step s (AddToQueue rnd) = s).
    { unfold step, touchesDeps, handle, handleAddToQueue. rewrite T. simpl.
      rewrite Bool.eqb_reflx. reflexivity. }
    rewrite E. split; split; auto; try discriminate. lia.
Qed.

Lemma find_id_some (id0 : string) (vs : list VoiceOption.t) :
  In id0 (map VoiceOption.id vs) ->
  exists v, find (fun voice => String.eqb (VoiceOption.id voice) id0) vs = Some v
            /\ VoiceOption.id v = id0 /\ In v vs.
Proof.
  induction vs as [|a vs IH]; simpl; [tauto|].
  destruct (String.eqb_spec (VoiceOption.id a) id0) as [E|E].
  - intros _. exists a. auto.
  - intros [I|I]; [congruence|]. destruct (IH I) as (v & F & Ev & Iv). exists v. auto.
Qed.

Lemma find_id_none (id0 : string) (vs : list VoiceOption.t) :
  ~ In id0 (map VoiceOption.id vs) ->
  find (fun voice => String.eqb (VoiceOption.id voice) id0) vs = None.
Proof.
  induction vs as [|a vs IH]; simpl; [reflexivity|].
  destruct (String.eqb_spec (VoiceOption.id a) id0) as [E|E]; tauto.
Qed.

(** A request is tied to the selected voice only if the catalog has a voice
    with that id: then the request stores the id and the utterance built for
    it against the same catalog gets a voice with that id.  Otherwise the
    request stores the empty id, whatever is selected. *)
Theorem enqueue_voice_reference (s : State) (rnd : string) :
  trim (text s) <> [] ->
  exists item,
    queue (step s (AddToQueue rnd)) = queue s ++ [item]
    /\ (In (selectedVoice s) (map VoiceOption.id (voices s)) ->
          QueueItem.voiceId item = selectedVoice s
          /\ exists v, Utterance.voice (utteranceFor s item) = Some v
                       /\ VoiceOption.id v = selectedVoice s /\ In v (voices s))
    /\ (~ In (selectedVoice s) (map VoiceOption.id (voices s)) ->
          QueueItem.voiceId item = "").
Proof.
  intros T. rewrite step_queue. simpl. unfold handleAddToQueue.
  destruct (trim (text s)) eqn:Tr; [congruence|]. simpl.
  eexists. split; [reflexivity|]. unfold selectedVoiceInfo. simpl. split.
  - intros I. destruct (find_id_some _ _ I) as (v & F & Ev & Iv). rewrite F.
    split; [exact Ev|]. unfold utteranceFor. simpl. rewrite Ev, F. exists v. auto.
  - intros N. rewrite (find_id_none _ _ N). reflexivity.
Qed.

Lemma enqueue_voice_reference_witness :
  let s := set_selectedVoice "gone" (set_text (js "hi") (init true)) in
  trim (text s) <> []
  /\ map QueueItem.voiceId (queue (step s (AddToQueue "a"))) = [""].
Proof.
  intros s.
  assert (T : trim (text s) <> []) by (vm_compute; discriminate).
  split; [exact T|].
  destruct (enqueue_voice_reference s "a" T) as (item & Q & _ & N).
  rewrite Q. simpl. rewrite N; [reflexivity|]. simpl. tauto.
Defined.

(** A request whose voice id names no voice of the catalog is spoken
    without a voice of its own (the engine's default); one whose id names a
    voice gets the first voice of the catalog with that id. *)
Theorem utterance_voice_fallback (s : State) (item : QueueItem.t) :
  (~ In (QueueItem.voiceId item) (map VoiceOption.id (voices s)) ->
     Utterance.voice (utteranceFor s item) = None)
  /\ (forall l1 v l2,
        voices s = l1 ++ v :: l2 ->
        VoiceOption.id v = QueueItem.voiceId item ->
        ~ In (QueueItem.voiceId item) (map VoiceOption.id l1) ->
        Utterance.voice (utteranceFor s item) = Some v).
Proof.
  unfold utteranceFor. simpl. split.
  - apply find_id_none.
  - intros l1 v l2 V E N. rewrite V. apply find_first.
    + intros y Iy. apply String.eqb_neq. intros C. apply N. rewrite <- C.
      apply in_map. exact Iy.
    + apply String.eqb_eq. exact E.
Qed.

Lemma utterance_voice_fallback_witness :
  let s := set_voices [VoiceOption.mk "Annaen-GB" "Anna" "en-GB"] (init true) in
  ~ In "Zed" (map VoiceOption.id (voices s))
  /\ Utterance.voice (utteranceFor s (QueueItem.mk "a" (js "hi") "Zed" 1 1 1 pending None))
     = None.
Proof.
  intros s.
  assert (N : ~ In "Zed" (map VoiceOption.id (voices s))).
  { simpl. intros [C|[]]. discriminate C. }
  split; [exact N|].
  exact (proj1 (utterance_voice_fallback s
                  (QueueItem.mk "a" (js "hi") "Zed" 1 1 1 pending None)) N).
Defined.

(** A catalog refresh while the earliest pending request has not started
    cancels the engine and submits that request again, with the voice
    looked up in the new catalog. *)
Theorem catalog_refresh_resubmits (s : State) (vs : list VoiceOption.t)
    (l1 l2 : list QueueItem.t) (x : QueueItem.t) :
  engineReady s = true ->
  speakingCount (queue s) = 0 ->
  isPaused s = false ->
  queue s = l1 ++ x :: l2 ->
  Forall (fun y => QueueItem.status y <> pending) l1 ->
  QueueItem.status x = pending ->
  let s' := step s (VoicesChanged vs) in
  engineCalls s' = engineCalls s ++ [Cancel; Speak (utteranceFor (set_voices vs s) x)]
  /\ queue s' = queue s.
Proof.
  intros R Z P Q Before Px s'. unfold s', step. simpl.
  rewrite (dispatch_rule (set_voices vs s) l1 l2 x R Z P Q Before Px).
  rewrite (speak_calls (set_voices vs s) x R), speak_queue. split; reflexivity.
Qed.

Lemma catalog_refresh_resubmits_witness :
  let s := run (init true) [SetText (js "hi"); AddToQueue "a"] in
  let vs := [VoiceOption.mk "Annaen-GB" "Anna" "en-GB"] in
  queue s = [] ++ request "a" pending :: []
  /\ engineCalls (step s (VoicesChanged vs))
     = engineCalls s ++ [Cancel; Speak (utteranceFor (set_voices vs s) (request "a" pending))].
Proof.
  intros s vs.
  assert (Q : queue s = [] ++ request "a" pending :: []) by (vm_compute; reflexivity).
  split; [exact Q|].
  assert (R : engineReady s = true) by (vm_compute; reflexivity).
  assert (Z : speakingCount (queue s) = 0) by (vm_compute; reflexivity).
  assert (P : isPaused s = false) by (vm_compute; reflexivity).
  exact (proj1 (catalog_refresh_resubmits s vs [] [] (request "a" pending) R Z P Q
                  (Forall_nil _) eq_refl)).
Defined.

(** ** The label of a queue entry *)

(** The text shown for a request is the request's text when it has at most
    120 code units, and its first 120 code units followed by one ellipsis
    otherwise; it never exceeds 121 code units. *)
Theorem itemLabel_bounds (item : QueueItem.t) :
  length (itemLabel item) <= 121
  /\ (length (QueueItem.text item) <= 120 -> itemLabel item = QueueItem.text item)
  /\ (120 < length (QueueItem.text item) ->
        length (itemLabel item) = 121
        /\ firstn 120 (itemLabel item) = firstn 120 (QueueItem.text item)
        /\ nth_error (itemLabel item) 120 = Some 8230%N).
Proof.
  unfold itemLabel. set (t := QueueItem.text item).
  pose proof (length_firstn 120 t) as F.
  destruct (120 <? length t) eqn:C.
  - apply Nat.ltb_lt in C. rewrite length_app.
    change (length [8230%N]) with 1.
    split; [lia|]. split; [lia|]. intros _.
    split; [lia|]. split.
    + rewrite firstn_app. replace (120 - length (firstn 120 t)) with 0 by lia.
      rewrite firstn_O, app_nil_r, firstn_firstn. reflexivity.
    + rewrite nth_error_app2 by lia. replace (120 - length (firstn 120 t)) with 0 by lia.
      reflexivity.
  - apply Nat.ltb_ge in C. rewrite app_nil_r.
    split; [lia|]. split; [|lia]. intros _. apply firstn_all2. exact C.
Qed.

Lemma itemLabel_bounds_witness :
  let item := request "a" pending in
  length (QueueItem.text item) <= 120 /\ itemLabel item = js "hi".
Proof.
  intros item.
  assert (L : length (QueueItem.text item) <= 120) by (vm_compute; lia).
  split; [exact L|].
  exact (proj1 (proj2 (itemLabel_bounds item)) L).
Defined.

(** ** The voice catalog *)

Lemma mapVoices_cases (availableVoices : list EngineVoice.t) (s : State) :
  let mapped := map voiceOption availableVoices in
  (mapVoices availableVoices s = set_voices mapped s
   /\ (selectedVoice s <> "" \/ availableVoices = []))
  \/ (selectedVoice s = ""
      /\ exists l1 v l2,
           mapped = l1 ++ v :: l2
           /\ mapVoices availableVoices s
              = set_selectedVoice (VoiceOption.id v) (set_voices mapped s)
           /\ Forall (fun w => englishLike w = false) l1
           /\ (englishLike v = true \/ (l1 = [] /\ Forall (fun w => englishLike w = false) l2))).
Proof.
  intros mapped. unfold mapVoices. fold voiceOption. fold mapped.
  destruct (String.eqb_spec (selectedVoice s) "") as [E|E]; simpl; [|left; auto].
  destruct availableVoices as [|a av]; [left; auto|].
  right. split; [exact E|].
  change (fun voice => startsWith "en" (toLowerCase (VoiceOption.lang voice))) with englishLike.
  destruct (find englishLike mapped) as [v|] eqn:F.
  - destruct (find_split _ _ _ _ F) as (l1 & l2 & M & Ev & Before).
    exists l1, v, l2. split; [exact M|]. split; [reflexivity|].
    split; [apply Forall_forall; exact Before | left; exact Ev].
  - exists [], (voiceOption a), (map voiceOption av).
    split; [reflexivity|]. split; [reflexivity|]. split; [constructor|]. right.
    split; [reflexivity|]. apply Forall_forall. intros w Iw.
    apply (find_none _ _ F). right. exact Iw.
Qed.

(** A catalog refresh replaces the catalog by one entry per engine voice,
    with the id made of name and language, touches neither the queue, the
    paused flag nor the engine, and never replaces a voice the user has
    selected. *)
Theorem mapVoices_keeps_selection (availableVoices : list EngineVoice.t) (s : State) :
  let s' := mapVoices availableVoices s in
  voices s' = map voiceOption availableVoices
  /\ queue s' = queue s
  /\ isPaused s' = isPaused s
  /\ engineCalls s' = engineCalls s
  /\ (selectedVoice s <> "" -> selectedVoice s' = selectedVoice s).
Proof.
  intros s'. unfold s'.
  destruct (mapVoices_cases availableVoices s)
    as [[-> _]|(E & l1 & v & l2 & _ & -> & _)]; simpl; repeat split; auto; congruence.
Qed.

Lemma mapVoices_keeps_selection_witness :
  let s := set_selectedVoice "Annade-DE" (init true) in
  let available := [EngineVoice.mk "Bob" "en-US"] in
  selectedVoice s <> ""
  /\ selectedVoice (mapVoices available s) = "Annade-DE"
  /\ selectedVoiceInfo (mapVoices available s) = None.
Proof.
  intros s available.
  assert (N : selectedVoice s <> "") by discriminate.
  split; [exact N|]. split; [|reflexivity].
  destruct (mapVoices_keeps_selection available s) as (_ & _ & _ & _ & K). exact (K N).
Defined.

(** With no voice selected and a non-empty engine list, a catalog refresh
    selects the first voice whose language starts with "en" in any letter
    case, and the first voice of the list if there is none; the selection
    then resolves to a catalog voice with the selected id. *)
Theorem mapVoices_default_selection (availableVoices : list EngineVoice.t) (s : State) :
  selectedVoice s = "" ->
  availableVoices <> [] ->
  let s' := mapVoices availableVoices s in
  exists l1 v l2,
    voices s' = l1 ++ v :: l2
    /\ selectedVoice s' = VoiceOption.id v
    /\ Forall (fun w => englishLike w = false) l1
    /\ (englishLike v = true \/ (l1 = [] /\ Forall (fun w => englishLike w = false) l2))
    /\ exists w, selectedVoiceInfo s' = Some w /\ VoiceOption.id w = VoiceOption.id v.
Proof.
  intros E N s'. unfold s'.
  destruct (mapVoices_cases availableVoices s)
    as [[_ [C|C]]|(_ & l1 & v & l2 & M & -> & B & P)]; [congruence | congruence|].
  exists l1, v, l2. simpl. repeat split; auto.
  unfold selectedVoiceInfo. simpl.
  destruct (find_id_some (VoiceOption.id v) (map voiceOption availableVoices))
    as (w & F & Ew & _).
  { rewrite M, map_app. apply in_or_app. right. left. reflexivity. }
  exists w. auto.
Qed.

Lemma mapVoices_default_selection_witness :
  let available := [EngineVoice.mk "Anna" "de-DE"; EngineVoice.mk "Bob" "EN-us";
                    EngineVoice.mk "Cy" "en-GB"] in
  selectedVoice (init true) = ""
  /\ available <> []
  /\ selectedVoice (mapVoices available (init true)) = "BobEN-us"
  /\ exists l1 v l2,
       voices (mapVoices available (init true)) = l1 ++ v :: l2
       /\ selectedVoice (mapVoices available (init true)) = VoiceOption.id v
       /\ Forall (fun w => englishLike w = false) l1.
Proof.
  intros available.
  assert (N : available <> []) by discriminate.
  split; [reflexivity|]. split; [exact N|]. split; [vm_compute; reflexivity|].
  destruct (mapVoices_default_selection available (init true) eq_refl N)
    as (l1 & v & l2 & V & S & B & _).
  exists l1, v, l2. auto.
Defined.

Lemma first_match_unique (X : Type) (f : X -> bool) (l1 l2 k1 k2 : list X) (v w : X) :
  l1 ++ v :: l2 = k1 ++ w :: k2 ->
  Forall (fun x => f x = false) l1 ->
  Forall (fun x => f x = false) k1 ->
  f v = true -> f w = true ->
  l1 = k1 /\ v = w.
Proof.
  revert k1. induction l1 as [|a l1 IH]; intros [|b k1] M B B' Fv Fw; simpl in M.
  - injection M as M1 _. auto.
  - injection M as M1 _. subst b. inversion B'; subst. congruence.
  - injection M as M1 _. subst a. inversion B; subst. congruence.
  - injection M as M1 M2. subst b. inversion B; subst. inversion B'; subst.
    destruct (IH k1 M2) as [-> ->]; auto.
Qed.

(** Refreshing the catalog a second time from the same engine list changes
    nothing: the refresh the component runs again after it has selected a
    default voice comes to rest. *)
Theorem mapVoices_idempotent (availableVoices : list EngineVoice.t) (s : State) :
  mapVoices availableVoices (mapVoices availableVoices s) = mapVoices availableVoices s.
Proof.
  destruct (mapVoices_cases availableVoices s)
    as [[E C]|(E0 & l1 & v & l2 & M & E & B & P)]; rewrite E.
  - destruct (mapVoices_cases availableVoices (set_voices (map voiceOption availableVoices) s))
      as [[E' _]|(E0' & k1 & w & k2 & M' & E' & _)]; rewrite E'; [reflexivity|].
    simpl in E0'. destruct C as [C|C]; [congruence|].
    subst availableVoices. destruct k1; discriminate M'.
  - set (t := set_selectedVoice (VoiceOption.id v)
                (set_voices (map voiceOption availableVoices) s)).
    destruct (mapVoices_cases availableVoices t)
      as [[E' _]|(E0' & k1 & w & k2 & M' & E' & B' & P')]; rewrite E'; [reflexivity|].
    simpl in E0'.
    (* the voice chosen first has the empty id: the same voice is chosen again *)
    assert (W : w = v).
    { rewrite M in M'. clear E E'.
      destruct P as [Pv|[-> Pv]], P' as [Pw|[-> Pw]].
      - symmetry. exact (proj2 (first_match_unique _ englishLike _ _ _ _ _ _ M' B B' Pv Pw)).
      - simpl in M'. destruct l1 as [|a l1]; simpl in M'; injection M' as M1 M2; [congruence|].
        subst a k2. rewrite Forall_forall in Pw.
        assert (I : In v (l1 ++ v :: l2)) by (apply in_or_app; right; left; reflexivity).
        specialize (Pw v I). congruence.
      - simpl in M'. destruct k1 as [|a k1]; simpl in M'; injection M' as M1 M2; [congruence|].
        subst a l2. rewrite Forall_forall in Pv.
        assert (I : In w (k1 ++ w :: k2)) by (apply in_or_app; right; left; reflexivity).
        specialize (Pv w I). congruence.
      - simpl in M'. congruence. }
    subst w. reflexivity.
Qed.

(** ** The paused flag *)

Lemma speakingCount_onstart_ge (id0 : string) (q : list QueueItem.t) :
  speakingCount q
  <= speakingCount (map (fun entry =>
       if String.eqb (QueueItem.id entry) id0
       then QueueItem.with_status entry speaking else entry) q).
Proof.
  unfold speakingCount, isSpeaking. induction q as [|a q IH]; simpl; [lia|].
  destruct (String.eqb (QueueItem.id a) id0); simpl.
  - destruct (status_eqb (QueueItem.status a) speaking); simpl; lia.
  - destruct (status_eqb (QueueItem.status a) speaking); simpl; lia.
Qed.

Lemma filter_filter_sub (X : Type) (f g : X -> bool) (l : list X) :
  (forall x, g x = true -> f x = true) ->
  filter g (filter f l) = filter g l.
Proof.
  intros Sub. induction l as [|a l IH]; simpl; [reflexivity|].
  destruct (f a) eqn:Fa; simpl; destruct (g a) eqn:Ga; rewrite ?IH; try reflexivity.
  rewrite (Sub a Ga) in Fa. discriminate.
Qed.

Lemma speakingCount_clear (q : list QueueItem.t) :
  speakingCount (filter (fun item =>
     status_eqb (QueueItem.status item) pending
     || status_eqb (QueueItem.status item) speaking) q)
  = speakingCount q.
Proof.
  unfold speakingCount. rewrite filter_filter_sub; [reflexivity|].
  intros x. unfold isSpeaking. intros ->. apply orb_true_r.
Qed.

Lemma step_paused_speaking (s : State) (e : Event) :
  clickable s e = true ->
  (isPaused s = true -> 0 < speakingCount (queue s)) ->
  isPaused (step s e) = true -> 0 < speakingCount (queue (step s e)).
Proof.
  intros C K. rewrite step_isPaused, step_queue.
  destruct e; unfold handle; try exact K.
  - unfold handleAddToQueue. case_if; [exact K|]. simpl.
    rewrite speakingCount_app. intros P. specialize (K P). lia.
  - unfold handleStop. case_if; [exact K | discriminate].
  - simpl in C. apply negb_true_iff in C.
    assert (Sp : 0 < speakingCount (queue s)).
    { unfold pauseDisabled in C. apply negb_false_iff in C.
      destruct (speakingCount (queue s)) eqn:Z; [|lia].
      apply speakingCount_zero_find, existsb_find_speaking in Z. congruence. }
    unfold handlePauseResume. case_if; [exact K|]. case_if; [intros _; exact Sp|].
    case_if; [discriminate | exact K].
  - simpl. rewrite speakingCount_clear. exact K.
  - destruct (nth_error (utterances s) u); [|exact K].
    assert (H : isPaused (onstart (Utterance.item t) s) = true ->
                0 < speakingCount (queue (onstart (Utterance.item t) s))).
    { simpl. intros P. specialize (K P).
      pose proof (speakingCount_onstart_ge (QueueItem.id (Utterance.item t)) (queue s)). lia. }
    case_if; exact H.
  - destruct (nth_error (utterances s) u); [discriminate | exact K].
  - destruct (nth_error (utterances s) u); [discriminate | exact K].
Qed.

(** In every run in which clicks come from enabled buttons only, the paused
    flag is on only while a request is speaking: the scheduler is never
    left paused with the status line reading Idle, a state in which the
    dispatch effect would wait and the Pause button would be disabled. *)
Theorem paused_only_while_speaking (supported : bool) (es : list Event) :
  clickableRun (init supported) es = true ->
  isPaused (run (init supported) es) = true ->
  0 < speakingCount (queue (run (init supported) es))
  /\ speakingStatus (run (init supported) es) = "Paused".
Proof.
  assert (G : forall es s, clickableRun s es = true ->
                (isPaused s = true -> 0 < speakingCount (queue s)) ->
                isPaused (run s es) = true -> 0 < speakingCount (queue (run s es))).
  { clear es. induction es as [|e es IH]; intros s C K; simpl in *; [exact K|].
    apply andb_prop in C. destruct C as [Ce C].
    apply IH; [exact C | apply step_paused_speaking; assumption]. }
  intros C P.
  assert (Z : 0 < speakingCount (queue (run (init supported) es))).
  { apply (G es (init supported) C); [discriminate | exact P]. }
  split; [exact Z|].
  apply (proj2 (paused_status (run (init supported) es))). auto.
Qed.

Lemma paused_only_while_speaking_witness :
  let es := [SetText (js "hi"); AddToQueue "a"; OnStart 0; PauseResume true false] in
  clickableRun (init true) es = true
  /\ isPaused (run (init true) es) = true
  /\ speakingStatus (run (init true) es) = "Paused".
Proof.
  intros es.
  assert (C : clickableRun (init true) es = true) by (vm_compute; reflexivity).
  assert (P : isPaused (run (init true) es) = true) by (vm_compute; reflexivity).
  split; [exact C|]. split; [exact P|].
  exact (proj2 (paused_only_while_speaking true es C P)).
Defined.
